(** * Shellsort [qsort] of sqlite3/libc/stdlib.h

    A shallow embedding of the weak [qsort] definition (Shellsort with the
    Gonnet & Baeza-Yates gap sequence) together with its correctness
    properties.

    The buffer is a list of bytes addressed by offsets relative to [base];
    [size_t] arithmetic is arithmetic on [Z] reduced modulo [2 ^ size_bits];
    the loops are recursive functions over a step budget.  Every step of
    the routine that matters to an observer is appended to a log: the gap
    chosen by each outer pass, each comparator call, and each byte that the
    swap loop loads or stores. *)

From Stdlib Require Import ZArith Lia List Permutation Sorted.
From Stdlib.Strings Require Import Byte.
From stdpp Require Import base list sorting.

Local Open Scope Z_scope.

(** ** Machine arithmetic *)

(** [size_t] is [size_bits] wide (32 on wasm32, 64 on wasm64). *)
Definition wrap (size_bits : Z) (x : Z) : Z := x mod 2 ^ size_bits.

(** [unsigned long long] is 64 bits wide. *)
Definition u64 (x : Z) : Z := x mod 2 ^ 64.

(** [gap = (5ull * gap - 1) / 11; if (gap == 0) gap = 1;]
    The product and the subtraction are done on [unsigned long long]; the
    assignment converts the quotient back to [size_t]. *)
Definition next_gap (size_bits : Z) (gap : Z) : Z :=
  let gap := wrap size_bits (u64 (u64 (5 * gap) - 1) / 11) in
  if gap =? 0 then 1 else gap.

(** ** Observable steps *)

Inductive event : Type :=
| EvGap (gap wgap : Z)          (* an outer pass starts with this gap *)
| EvComp (gap a b : Z) (r : Z)  (* [comp (base + a, base + b)] returned [r] *)
| EvLoad (off : Z)              (* the swap loop read the byte [base + off] *)
| EvStore (off : Z).            (* the swap loop wrote the byte [base + off] *)

Record state : Type := mkState {
  mem : list byte;    (* the bytes of the buffer, from [base] on *)
  log : list event    (* what happened so far, oldest first *)
}.

(** Ways in which the C program leaves defined behaviour. *)
Inductive ub : Type :=
| OutOfBounds (off : Z)           (* an access outside the buffer *)
| AssumeViolated (wgap wnel : Z). (* [__builtin_assume] on a false condition *)

Inductive outcome (A : Type) : Type :=
| Done (a : A) (s : state)
| Undefined (u : ub)
| OutOfFuel.

Arguments Done {A} a s.
Arguments Undefined {A} u.
Arguments OutOfFuel {A}.

Definition M (A : Type) : Type := state -> outcome A.

Definition ret {A} (a : A) : M A := fun s => Done a s.

Definition bind {A B} (m : M A) (k : A -> M B) : M B :=
  fun s =>
    match m s with
    | Done a s' => k a s'
    | Undefined u => Undefined u
    | OutOfFuel => OutOfFuel
    end.

Notation "x <- m ;; k" := (bind m (fun x => k))
  (at level 100, m at next level, right associativity).
Notation "m ;;; k" := (bind m (fun _ => k))
  (at level 100, right associativity).

Definition undefined {A} (u : ub) : M A := fun _ => Undefined u.
Definition out_of_fuel {A} : M A := fun _ => OutOfFuel.

Definition record (e : event) : M unit :=
  fun s => Done tt (mkState (mem s) (log s ++ [e])).

(** [*p] for the [char *p = base + off]. *)
Definition load (off : Z) : M byte :=
  fun s =>
    match (if 0 <=? off then mem s !! Z.to_nat off else None) with
    | Some v => Done v (mkState (mem s) (log s ++ [EvLoad off]))
    | None => Undefined (OutOfBounds off)
    end.

(** [*p = v] for the [char *p = base + off]. *)
Definition store (off : Z) (v : byte) : M unit :=
  fun s =>
    if (0 <=? off) && (off <? Z.of_nat (length (mem s))) then
      Done tt (mkState (<[Z.to_nat off := v]> (mem s)) (log s ++ [EvStore off]))
    else Undefined (OutOfBounds off).

(** The [width] bytes of the element that starts at [base + off]: what a
    comparator sees through the pointer it is given. *)
Definition fetch (width : Z) (off : Z) : M (list byte) :=
  fun s =>
    if (0 <=? off) && (off + width <=? Z.of_nat (length (mem s))) then
      Done (take (Z.to_nat width) (drop (Z.to_nat off) (mem s))) s
    else Undefined (OutOfBounds off).

(** ** The routine *)

Section Routine.

Variable size_bits : Z.
(** The comparator, a pure function of the contents of the two elements it
    is pointed at; the result is its [int]. *)
Variable comp : list byte -> list byte -> Z.
Variable width : Z.
Variable wnel : Z.
(** Steps granted to each run of each loop. *)
Variable budget : nat.

(** [comp(a, b)] with [a = base + a_off], [b = base + b_off]. *)
Definition call_comp (gap a b : Z) : M Z :=
  x <- fetch width a ;;
  y <- fetch width b ;;
  let r := comp x y in
  record (EvComp gap a b r) ;;;
  ret r.

(** [do { char tmp = *a; *a++ = *b; *b++ = tmp; } while (--s);] *)
Fixpoint swap_loop (fuel : nat) (a b s : Z) : M unit :=
  match fuel with
  | O => out_of_fuel
  | S fuel =>
      tmp <- load a ;;
      v <- load b ;;
      store a v ;;;
      store b tmp ;;;
      let s := wrap size_bits (s - 1) in
      if s =? 0 then ret tt else swap_loop fuel (a + 1) (b + 1) s
  end.

(** [for (size_t j = i; !__builtin_sub_overflow(j, wgap, &j);) { ... }]
    The subtraction overflows exactly when [j < wgap]. *)
Fixpoint walk_loop (fuel : nat) (gap wgap j : Z) : M unit :=
  match fuel with
  | O => out_of_fuel
  | S fuel =>
      if j <? wgap then ret tt
      else
        let j := j - wgap in
        let a := j in
        let b := a + wgap in
        r <- call_comp gap a b ;;
        if r <=? 0 then ret tt
        else
          swap_loop budget a b width ;;;
          walk_loop fuel gap wgap j
  end.

(** [for (size_t i = wgap; i < wnel; i += width) { ... }] *)
Fixpoint pass_loop (fuel : nat) (gap wgap i : Z) : M unit :=
  match fuel with
  | O => out_of_fuel
  | S fuel =>
      if i <? wnel then
        walk_loop budget gap wgap i ;;;
        pass_loop fuel gap wgap (wrap size_bits (i + width))
      else ret tt
  end.

(** [__builtin_assume(c)]: nothing happens when [c] holds, anything may
    when it does not. *)
Definition builtin_assume (wgap : Z) : M unit :=
  if wgap <? wnel then ret tt else undefined (AssumeViolated wgap wnel).

(** [while (gap > 1) { ... }] *)
Fixpoint gap_loop (fuel : nat) (gap : Z) : M unit :=
  match fuel with
  | O => out_of_fuel
  | S fuel =>
      if 1 <? gap then
        let gap := next_gap size_bits gap in
        let wgap := wrap size_bits (width * gap) in
        record (EvGap gap wgap) ;;;
        builtin_assume wgap ;;;
        pass_loop budget gap wgap wgap ;;;
        gap_loop fuel gap
      else ret tt
  end.

End Routine.

(** The body of [qsort (base, nel, width, comp)], run with a given step
    budget on a given state. *)
Definition qsort_body (size_bits : Z) (comp : list byte -> list byte -> Z)
    (budget : nat) (nel width : Z) : M unit :=
  let wnel := wrap size_bits (width * nel) in
  let gap := nel in
  gap_loop size_bits comp width wnel budget budget gap.

(** No loop of a valid call on [nel] elements of [width] bytes runs for more
    than [max nel width] rounds, so this budget is never exhausted by one
    (lemma [qsort_budget_irrelevant] below). *)
Definition qsort_budget (nel width : Z) : nat := S (Z.to_nat (Z.max nel width)).

(** A call of [qsort] on the buffer holding [base], with an empty log. *)
Definition qsort (size_bits : Z) (comp : list byte -> list byte -> Z)
    (base : list byte) (nel width : Z) : outcome unit :=
  qsort_body size_bits comp (qsort_budget nel width) nel width
    (mkState base []).

(** ** Elements of a buffer *)

(** The element number [k] of a buffer of [width]-byte elements. *)
Definition element (width : Z) (buf : list byte) (k : nat) : list byte :=
  take (Z.to_nat width) (drop (Z.to_nat width * k) buf).

(** The buffer as the list of its [nel] elements. *)
Definition elements (width nel : Z) (buf : list byte) : list (list byte) :=
  map (element width buf) (seq 0 (Z.to_nat nel)).

(** ** The routine seen on whole elements

    The same loops, on the list of the elements of the buffer instead of its
    bytes and with element numbers instead of byte offsets.  The lemmas of
    the section [Refinement] show that a valid call of [qsort] computes
    exactly this. *)

Record view : Type := mkView {
  elems : list (list byte);  (* the elements, in buffer order *)
  events : list event        (* the log *)
}.

(** The state that a view stands for. *)
Definition state_of (v : view) : state := mkState (concat (elems v)) (events v).

(** What one run of the swap loop logs. *)
Fixpoint swap_events (n : nat) (a b : Z) : list event :=
  match n with
  | O => []
  | S n => EvLoad a :: EvLoad b :: EvStore a :: EvStore b
             :: swap_events n (a + 1) (b + 1)
  end.

Section Elementwise.

Variable size_bits : Z.
Variable comp : list byte -> list byte -> Z.
Variable width : Z.
Variable nel : nat.

(** The backward walk of element [m] along its chain of gap [g]. *)
Fixpoint walk_elems (fuel : nat) (g m : nat) (v : view) : view :=
  match fuel with
  | O => v
  | S fuel =>
      if (m <? g)%nat then v
      else
        let j := (m - g)%nat in
        match elems v !! j, elems v !! m with
        | Some x, Some y =>
            let r := comp x y in
            let a := width * Z.of_nat j in
            let b := width * Z.of_nat m in
            let e := EvComp (Z.of_nat g) a b r in
            if r <=? 0 then mkView (elems v) (events v ++ [e])
            else
              walk_elems fuel g j
                (mkView (<[j := y]> (<[m := x]> (elems v)))
                        (events v ++ e :: swap_events (Z.to_nat width) a b))
        | _, _ => v
        end
  end.

(** One pass: the walks of the elements [i], [i + 1], ..., [i + k - 1]. *)
Fixpoint pass_elems (k : nat) (g i : nat) (v : view) : view :=
  match k with
  | O => v
  | S k => pass_elems k g (S i) (walk_elems (S i) g i v)
  end.

(** The passes, by decreasing gap. *)
Fixpoint gap_elems (fuel : nat) (gap : Z) (v : view) : view :=
  match fuel with
  | O => v
  | S fuel =>
      if 1 <? gap then
        let gap := next_gap size_bits gap in
        let g := Z.to_nat gap in
        gap_elems fuel gap
          (pass_elems (nel - g) g g
             (mkView (elems v) (events v ++ [EvGap gap (width * gap)])))
      else v
  end.

End Elementwise.

(** [qsort] on whole elements. *)
Definition sort_elems (size_bits : Z) (comp : list byte -> list byte -> Z)
    (width : Z) (xs : list (list byte)) : view :=
  gap_elems size_bits comp width (length xs) (S (length xs))
    (Z.of_nat (length xs)) (mkView xs []).

(** ** Vocabulary of the properties *)

(** The preconditions of a call: sane [size_t], elements that are not empty,
    a byte count that fits [size_t], and a buffer of exactly that size. *)
Record valid_call (size_bits : Z) (base : list byte) (nel width : Z) : Prop := {
  valid_bits : 0 < size_bits <= 64;
  valid_nel : 0 <= nel;
  valid_width : 0 < width;
  valid_span : width * nel < 2 ^ size_bits;
  valid_base : Z.of_nat (length base) = width * nel
}.

(** A three-way comparator that describes a strict weak ordering: "less" is
    [comp x y < 0], "greater" is the converse, and both "less" and "equal"
    are transitive. *)
Record strict_weak_ordering (comp : list byte -> list byte -> Z) : Prop := {
  swo_converse : forall x y, 0 < comp x y <-> comp y x < 0;
  swo_less_trans : forall x y z, comp x y < 0 -> comp y z < 0 -> comp x z < 0;
  swo_equal_trans : forall x y z, comp x y = 0 -> comp y z = 0 -> comp x z = 0
}.

(** Every element is in order with the next one. *)
Definition sorted (comp : list byte -> list byte -> Z)
    (xs : list (list byte)) : Prop :=
  forall (k : nat) x y, xs !! k = Some x -> xs !! S k = Some y -> comp x y <= 0.

(** The first [i] elements are in order. *)
Definition sorted_upto (comp : list byte -> list byte -> Z) (i : nat)
    (xs : list (list byte)) : Prop :=
  forall (k : nat) x y, (S k < i)%nat ->
    xs !! k = Some x -> xs !! S k = Some y -> comp x y <= 0.

(** The first [i + 1] elements are in order but for the one at [m], which
    may still be below its predecessor, and the two neighbours of the
    element at [m] are in order with each other: the state of an insertion
    while element [m] walks down. *)
Definition hole (comp : list byte -> list byte -> Z) (i m : nat)
    (xs : list (list byte)) : Prop :=
  (forall (k : nat) x y, (S k <= i)%nat -> S k <> m ->
     xs !! k = Some x -> xs !! S k = Some y -> comp x y <= 0) /\
  (forall (k : nat) x y, S k = m -> (S m <= i)%nat ->
     xs !! k = Some x -> xs !! S m = Some y -> comp x y <= 0).

(** The events of the swap loop. *)
Definition is_access (e : event) : bool :=
  match e with
  | EvLoad _ | EvStore _ => true
  | _ => false
  end.

(** The gaps of the passes of a log, in order. *)
Fixpoint gaps_of (l : list event) : list Z :=
  match l with
  | [] => []
  | EvGap gap _ :: l => gap :: gaps_of l
  | _ :: l => gaps_of l
  end.

(** The comparator calls of a log, as pairs of offsets, in order. *)
Fixpoint calls_of (l : list event) : list (Z * Z) :=
  match l with
  | [] => []
  | EvComp _ a b _ :: l => (a, b) :: calls_of l
  | _ :: l => calls_of l
  end.

(** An event that stays inside a buffer of [nel] elements of [width] bytes:
    bytes are accessed inside it, the gap of a pass is below [nel], and a
    comparator is given two whole elements of the buffer, [width * gap]
    bytes apart. *)
Definition event_ok (width nel : Z) (e : event) : Prop :=
  match e with
  | EvGap gap wgap =>
      1 <= gap < nel /\ wgap = width * gap /\ wgap < width * nel
  | EvComp gap a b _ =>
      (exists k, 0 <= k /\ a = width * k) /\
      0 <= a /\ b = a + width * gap /\ 1 <= gap /\ b + width <= width * nel
  | EvLoad off | EvStore off => 0 <= off < width * nel
  end.

(** A view of [nel] elements of [width] bytes each. *)
Definition well_formed (width : Z) (nel : nat) (v : view) : Prop :=
  length (elems v) = nel /\
  Forall (fun x => length x = Z.to_nat width) (elems v).

(** [gap_chain size_bits gap l]: [l] lists the gaps of the passes that the
    outer loop makes when it is entered with [gap]; each is the next gap of
    the one before, and the chain stops at the first gap that is not above
    one. *)
Fixpoint gap_chain (size_bits : Z) (gap : Z) (l : list Z) : Prop :=
  match l with
  | [] => gap <= 1
  | g :: l => 1 < gap /\ g = next_gap size_bits gap /\ gap_chain size_bits g l
  end.

(** An outcome other than a violated [__builtin_assume]. *)
Definition assume_holds {A} (o : outcome A) : Prop :=
  match o with
  | Undefined (AssumeViolated _ _) => False
  | _ => True
  end.

(** ** Examples *)

(** Little-endian encoding of unsigned integers. *)
Fixpoint le_bytes (n : nat) (x : Z) : list byte :=
  match n with
  | O => []
  | S n =>
      match Byte.of_N (Z.to_N (x mod 256)) with
      | Some b => b :: le_bytes n (x / 256)
      | None => []
      end
  end.

Fixpoint le_value (bs : list byte) : Z :=
  match bs with
  | [] => 0
  | b :: bs => Z.of_N (Byte.to_N b) + 256 * le_value bs
  end.

(** A comparator that orders the elements by an integer key and answers
    -1, 0 or 1. *)
Definition compare_by (key : list byte -> Z) (x y : list byte) : Z :=
  match key x ?= key y with
  | Lt => -1
  | Eq => 0
  | Gt => 1
  end.

(** The ascending order of unsigned little-endian integers. *)
Definition ascending : list byte -> list byte -> Z := compare_by le_value.

(** The ascending order of the first byte alone: the rest of an element is
    payload that the order does not look at. *)
Definition by_first_byte : list byte -> list byte -> Z :=
  compare_by (fun x => le_value (take 1 x)).

Definition buffer_of (width : nat) (xs : list Z) : list byte :=
  concat (map (le_bytes width) xs).

(** The buffers of the examples. *)
Definition example_ints : list byte := buffer_of 4 [5; 3; 8; 1; 9; 2].
Definition example_sorted : list byte := buffer_of 4 [1; 2; 3; 5; 8; 9].
Definition example_equal : list byte := buffer_of 4 [7; 7; 7; 7].

(** Five elements of two bytes, a key and a tag; the first two have the
    same key. *)
Definition example_tagged : list byte :=
  concat (map (fun '(k, t) => le_bytes 1 k ++ le_bytes 1 t)
            [(2, 0); (2, 1); (1, 2); (3, 3); (3, 4)]).

(** ** Vocabulary of the further properties *)

(** The shape of a log.  A pass announces its gap; a comparison that
    returned a value that is at most zero is followed by nothing of its
    own; a comparison that returned a positive value is followed at once by
    the loads and stores of one run of the swap loop on the two elements
    compared.  Nothing else is loaded or stored. *)
Inductive well_shaped (width : Z) : list event -> Prop :=
| shape_nil : well_shaped width []
| shape_gap (gap wgap : Z) (l : list event) :
    well_shaped width l -> well_shaped width (EvGap gap wgap :: l)
| shape_keep (gap a b r : Z) (l : list event) :
    r <= 0 -> well_shaped width l ->
    well_shaped width (EvComp gap a b r :: l)
| shape_swap (gap a b r : Z) (l : list event) :
    0 < r -> well_shaped width l ->
    well_shaped width
      (EvComp gap a b r :: swap_events (Z.to_nat width) a b ++ l).

(** The number of comparator calls in the log of a view. *)
Definition calls (v : view) : nat := length (calls_of (events v)).

(** What a pass of gap [gap] logs on a buffer [base] that is sorted: its
    gap, then one comparator call for each element from number [gap] on, in
    ascending order, each on the element [gap] places before it and on
    itself. *)
Definition sorted_pass_events (comp : list byte -> list byte -> Z)
    (width : Z) (base : list byte) (nel : Z) (gap : Z) : list event :=
  EvGap gap (width * gap) ::
  map (fun i : nat =>
         EvComp gap (width * Z.of_nat (i - Z.to_nat gap)) (width * Z.of_nat i)
           (comp (element width base (i - Z.to_nat gap))
                 (element width base i)))
      (seq (Z.to_nat gap) (Z.to_nat nel - Z.to_nat gap)).

(** The sum of a list of integers. *)
Definition total (l : list Z) : Z := fold_right Z.add 0 l.

(** Where the byte at [k] comes from when the [n] bytes at [a] and the [n]
    bytes at [b] change places. *)
Definition exchanged (a b n k : nat) : nat :=
  if decide (a <= k < a + n)%nat then (k - a + b)%nat
  else if decide (b <= k < b + n)%nat then (k - b + a)%nat
  else k.

(** A comparator that is no ordering: integers are compared by their
    residues modulo 3 as in rock, paper, scissors, each residue above the
    one before it and below the one after it. *)
Definition cyclic (x y : list byte) : Z :=
  match (le_value x - le_value y) mod 3 with
  | 0 => 0
  | 1 => 1
  | _ => -1
  end.

(** * Proofs *)

(** ** The gap recurrence *)

Section Gap.

Variable size_bits : Z.
Hypothesis size_bits_range : 0 < size_bits <= 64.

Lemma size_max_le : 2 <= 2 ^ size_bits <= 2 ^ 64.
Proof.
  split.
  - change 2 with (2 ^ 1) at 1. apply Z.pow_le_mono_r; lia.
  - apply Z.pow_le_mono_r; lia.
Qed.

Lemma wrap_small (x : Z) : 0 <= x < 2 ^ size_bits -> wrap size_bits x = x.
Proof. intros Hx. unfold wrap. apply Z.mod_small. exact Hx. Qed.

(** Five times a nonzero 64-bit number is not a multiple of [2 ^ 64]. *)
Lemma u64_five (g : Z) : 0 < g < 2 ^ 64 -> 1 <= u64 (5 * g) <= 5 * g.
Proof.
  intros Hg. unfold u64.
  change (2 ^ 64) with 18446744073709551616 in *.
  pose proof (Z.mod_pos_bound (5 * g) 18446744073709551616 ltac:(lia)) as Hb.
  pose proof (Z.div_mod (5 * g) 18446744073709551616 ltac:(lia)) as Hd.
  assert (0 <= 5 * g / 18446744073709551616 < 5) as Hq.
  { split; [apply Z.div_pos; lia | apply Z.div_lt_upper_bound; lia]. }
  lia.
Qed.

(** The quotient before the conversion to [size_t] and the clamp. *)
Lemma gap_quotient (g : Z) :
  0 < g < 2 ^ size_bits ->
  0 <= u64 (u64 (5 * g) - 1) / 11 /\ 2 * (u64 (u64 (5 * g) - 1) / 11) < g.
Proof.
  intros Hg. pose proof size_max_le as Hm.
  pose proof (u64_five g ltac:(lia)) as Hf.
  assert (u64 (5 * g) < 2 ^ 64) as Hlt.
  { unfold u64. apply Z.mod_pos_bound. lia. }
  assert (u64 (u64 (5 * g) - 1) = u64 (5 * g) - 1) as ->.
  { unfold u64 at 1. apply Z.mod_small. lia. }
  pose proof (Z.div_mod (u64 (5 * g) - 1) 11 ltac:(lia)) as Hd.
  pose proof (Z.mod_pos_bound (u64 (5 * g) - 1) 11 ltac:(lia)) as Hb.
  split; [apply Z.div_pos; lia | lia].
Qed.

(** Whatever the gap, also when [5 * gap] wraps around: the next gap is
    positive and at most half of it. *)
Lemma next_gap_halves (g : Z) :
  1 < g < 2 ^ size_bits ->
  1 <= next_gap size_bits g /\ 2 * next_gap size_bits g <= g.
Proof.
  intros Hg. unfold next_gap.
  destruct (gap_quotient g ltac:(lia)) as [H0 H1].
  rewrite wrap_small by lia.
  destruct (Z.eqb_spec (u64 (u64 (5 * g) - 1) / 11) 0); lia.
Qed.

(** Without wrap-around the next gap is the one of Gonnet & Baeza-Yates. *)
Lemma next_gap_exact (g : Z) :
  1 < g < 2 ^ size_bits -> 5 * g < 2 ^ 64 ->
  next_gap size_bits g = Z.max 1 ((5 * g - 1) / 11).
Proof.
  intros Hg Hno. unfold next_gap.
  destruct (gap_quotient g ltac:(lia)) as [H0 H1].
  rewrite wrap_small by lia.
  assert (u64 (5 * g) = 5 * g) as E.
  { unfold u64. apply Z.mod_small. lia. }
  rewrite E in *.
  assert (u64 (5 * g - 1) = 5 * g - 1) as E'.
  { unfold u64. apply Z.mod_small. lia. }
  rewrite E' in *.
  destruct (Z.eqb_spec ((5 * g - 1) / 11) 0); lia.
Qed.

End Gap.

(** ** Lists of equally long elements *)

Section Chunks.

Context {A : Type}.
Implicit Types (x y : list A) (xs : list (list A)) (w j m : nat).

Lemma uniform_length_concat w xs :
  Forall (fun x => length x = w) xs ->
  length (concat xs) = (w * length xs)%nat.
Proof.
  induction 1 as [|x xs Hx _ IH]; simpl.
  - lia.
  - rewrite length_app, IH, Hx. lia.
Qed.

Lemma uniform_element w xs j x :
  Forall (fun x => length x = w) xs ->
  xs !! j = Some x ->
  take w (drop (w * j) (concat xs)) = x.
Proof.
  intros Hu. revert j. induction Hu as [|x0 xs Hx _ IH]; intros j Hj.
  - discriminate.
  - destruct j as [|j]; simpl in *.
    + injection Hj as ->. rewrite Nat.mul_0_r. simpl.
      apply take_app_length'. congruence.
    + replace (w * S j)%nat with (length x0 + w * j)%nat by lia.
      rewrite drop_app_add. apply IH. exact Hj.
Qed.

Lemma split_two xs j m x y :
  xs !! j = Some x -> xs !! m = Some y -> (j < m)%nat ->
  exists l1 l2 l3,
    xs = l1 ++ x :: l2 ++ y :: l3 /\
    length l1 = j /\ length l2 = (m - j - 1)%nat.
Proof.
  intros Hj Hm Hlt.
  pose proof (lookup_lt_Some _ _ _ Hj) as Hjl.
  assert (drop (S j) xs !! (m - j - 1)%nat = Some y) as Hm'.
  { rewrite lookup_drop. rewrite <- Hm. f_equal. lia. }
  pose proof (lookup_lt_Some _ _ _ Hm') as Hml.
  exists (take j xs), (take (m - j - 1) (drop (S j) xs)),
    (drop (S (m - j - 1)) (drop (S j) xs)).
  split; [|split].
  - rewrite (take_drop_middle _ _ _ Hm').
    symmetry. apply take_drop_middle. exact Hj.
  - apply length_take_le. lia.
  - apply length_take_le. lia.
Qed.

Lemma insert_two (l1 l2 l3 : list (list A)) x y j m :
  length l1 = j -> (m = j + 1 + length l2)%nat ->
  <[j := y]> (<[m := x]> (l1 ++ x :: l2 ++ y :: l3)) =
  l1 ++ y :: l2 ++ x :: l3.
Proof.
  intros <- ->.
  replace (length l1 + 1 + length l2)%nat
    with (length l1 + S (length l2 + 0))%nat by lia.
  rewrite insert_app_r. simpl. rewrite insert_app_r. simpl.
  replace (length l1) with (length l1 + 0)%nat at 1 by lia.
  rewrite insert_app_r. reflexivity.
Qed.

(** Exchanging two elements permutes the list. *)
Lemma exchange_Permutation xs j m x y :
  xs !! j = Some x -> xs !! m = Some y -> (j < m)%nat ->
  Permutation xs (<[j := y]> (<[m := x]> xs)).
Proof.
  intros Hj Hm Hlt.
  destruct (split_two xs j m x y Hj Hm Hlt) as (l1 & l2 & l3 & -> & H1 & H2).
  rewrite (insert_two l1 l2 l3 x y j m H1) by lia.
  apply Permutation_app_head.
  change (Permutation ([x] ++ l2 ++ [y] ++ l3) ([y] ++ l2 ++ [x] ++ l3)).
  rewrite !app_assoc. apply Permutation_app_tail.
  rewrite <- !app_assoc.
  rewrite (Permutation_app_comm [x] (l2 ++ [y])).
  rewrite (Permutation_app_comm [y] (l2 ++ [x])).
  rewrite <- !app_assoc. apply Permutation_app_head.
  apply perm_swap.
Qed.

Lemma exchange_uniform w xs j m x y :
  Forall (fun x => length x = w) xs ->
  xs !! j = Some x -> xs !! m = Some y ->
  Forall (fun x => length x = w) (<[j := y]> (<[m := x]> xs)).
Proof.
  intros Hu Hj Hm.
  pose proof (proj1 (Forall_lookup _ _) Hu) as Hl.
  apply Forall_insert; [apply Forall_insert|]; eauto.
Qed.

End Chunks.

(** ** The primitive steps *)

Lemma load_ok (off : Z) (v : byte) (s : state) :
  0 <= off -> mem s !! Z.to_nat off = Some v ->
  load off s = Done v (mkState (mem s) (log s ++ [EvLoad off])).
Proof.
  intros H0 Hv. unfold load.
  destruct (Z.leb_spec 0 off); [|lia]. rewrite Hv. reflexivity.
Qed.

Lemma store_ok (off : Z) (v : byte) (s : state) :
  0 <= off < Z.of_nat (length (mem s)) ->
  store off v s =
  Done tt (mkState (<[Z.to_nat off := v]> (mem s)) (log s ++ [EvStore off])).
Proof.
  intros H. unfold store.
  destruct (Z.leb_spec 0 off); [|lia].
  destruct (Z.ltb_spec off (Z.of_nat (length (mem s)))); [|lia].
  reflexivity.
Qed.

Lemma fetch_ok (width off : Z) (s : state) :
  0 <= off -> off + width <= Z.of_nat (length (mem s)) ->
  fetch width off s =
  Done (take (Z.to_nat width) (drop (Z.to_nat off) (mem s))) s.
Proof.
  intros H0 H1. unfold fetch.
  destruct (Z.leb_spec 0 off); [|lia].
  destruct (Z.leb_spec (off + width) (Z.of_nat (length (mem s)))); [|lia].
  reflexivity.
Qed.

(** ** The element loops permute *)

Section ElementLoops.

Variable size_bits : Z.
Hypothesis size_bits_range : 0 < size_bits <= 64.
Variable comp : list byte -> list byte -> Z.
Variable width : Z.

Lemma walk_elems_Permutation (fuel g m : nat) (v : view) :
  (1 <= g)%nat ->
  Permutation (elems v) (elems (walk_elems comp width fuel g m v)).
Proof.
  intros Hg. revert m v.
  induction fuel as [|fuel IH]; intros m v; simpl; [reflexivity|].
  destruct (Nat.ltb_spec m g) as [|Hm]; [reflexivity|].
  destruct (elems v !! (m - g)%nat) as [x|] eqn:Hx; [|reflexivity].
  destruct (elems v !! m) as [y|] eqn:Hy; [|reflexivity].
  destruct (comp x y <=? 0); [reflexivity|].
  etransitivity; [|apply IH]. simpl.
  apply exchange_Permutation; [exact Hx|exact Hy|lia].
Qed.

Lemma pass_elems_Permutation (k g i : nat) (v : view) :
  (1 <= g)%nat ->
  Permutation (elems v) (elems (pass_elems comp width k g i v)).
Proof.
  intros Hg. revert i v.
  induction k as [|k IH]; intros i v; cbn [pass_elems]; [reflexivity|].
  etransitivity; [|apply IH].
  apply walk_elems_Permutation. exact Hg.
Qed.

Lemma gap_elems_Permutation (nel fuel : nat) (gap : Z) (v : view) :
  gap < 2 ^ size_bits ->
  Permutation (elems v)
    (elems (gap_elems size_bits comp width nel fuel gap v)).
Proof.
  revert gap v.
  induction fuel as [|fuel IH]; intros gap v Hgap; cbn [gap_elems];
    [reflexivity|].
  destruct (Z.ltb_spec 1 gap) as [H1|]; [|reflexivity].
  destruct (next_gap_halves size_bits size_bits_range gap ltac:(lia))
    as [Hn Hh].
  etransitivity; [|apply IH; lia].
  etransitivity; [|apply pass_elems_Permutation; lia].
  reflexivity.
Qed.

(** Permuting keeps the number of elements and their common length. *)
Lemma Permutation_uniform (w : nat) (xs ys : list (list byte)) :
  Permutation xs ys ->
  Forall (fun x => length x = w) xs -> Forall (fun x => length x = w) ys.
Proof.
  intros Hp Hu. rewrite Forall_forall in *.
  intros y Hy. apply Hu. rewrite list_elem_of_In in *.
  apply (Permutation_in _ (Permutation_sym Hp) Hy).
Qed.

End ElementLoops.

Ltac app_normal := repeat progress (rewrite <- ?app_assoc; simpl).

Lemma middle_insert {A} (l1 l2 : list A) (x y : A) (n : nat) :
  n = length l1 -> <[n := y]> (l1 ++ x :: l2) = l1 ++ y :: l2.
Proof.
  intros ->. replace (length l1) with (length l1 + 0)%nat by lia.
  rewrite insert_app_r. reflexivity.
Qed.

(** ** The byte loops compute the element loops *)

Section Refinement.

Variable size_bits : Z.
Hypothesis size_bits_range : 0 < size_bits <= 64.
Variable comp : list byte -> list byte -> Z.

(** The swap loop exchanges two disjoint runs of bytes of equal length. *)
Lemma swap_loop_segments (X : list byte) :
  forall (Y P Q R : list byte) (evs : list event) (fuel : nat) (a b : Z),
    X <> [] -> length Y = length X ->
    Z.of_nat (length X) < 2 ^ size_bits ->
    (length X <= fuel)%nat ->
    a = Z.of_nat (length P) ->
    b = Z.of_nat (length P + length X + length Q) ->
    swap_loop size_bits fuel a b (Z.of_nat (length X))
      (mkState (P ++ X ++ Q ++ Y ++ R) evs) =
    Done tt (mkState (P ++ Y ++ Q ++ X ++ R)
               (evs ++ swap_events (length X) a b)).
Proof.
  induction X as [|c X IH]; intros Y P Q R evs fuel a b Hne HY Hlt Hfuel Ha Hb;
    [congruence|].
  destruct Y as [|d Y]; [discriminate|].
  destruct fuel as [|fuel]; [simpl in Hfuel; lia|].
  simpl length in *.
  assert (0 <= a) as Ha0 by lia.
  assert (0 <= b) as Hb0 by lia.
  assert ((P ++ (c :: X) ++ Q ++ (d :: Y) ++ R) =
          (P ++ c :: X ++ Q) ++ d :: (Y ++ R)) as E0.
  { app_normal. reflexivity. }
  assert (Z.to_nat b = length (P ++ c :: X ++ Q)) as Eb.
  { rewrite !length_app. simpl. rewrite length_app. lia. }
  assert (Z.to_nat a = length P) as Ea by lia.
  cbn [swap_loop]. unfold bind at 1.
  rewrite (load_ok a c);
    [|exact Ha0|cbn [mem]; apply list_lookup_middle; exact Ea].
  cbn [mem log]. unfold bind at 1.
  rewrite (load_ok b d);
    [|exact Hb0|cbn [mem]; rewrite E0; apply list_lookup_middle; exact Eb].
  cbn [mem log]. unfold bind at 1.
  rewrite store_ok.
  2:{ cbn [mem]. rewrite !length_app. simpl. lia. }
  cbn [mem log]. unfold bind at 1.
  rewrite store_ok.
  2:{ cbn [mem]. rewrite length_insert, E0, length_app. simpl. lia. }
  cbn [mem log].
  assert (<[Z.to_nat b := c]>
            (<[Z.to_nat a := d]> (P ++ (c :: X) ++ Q ++ (d :: Y) ++ R))
          = (P ++ [d]) ++ X ++ (Q ++ [c]) ++ Y ++ R) as ->.
  { simpl. rewrite (middle_insert P _ c d _ Ea).
    assert (P ++ d :: X ++ Q ++ d :: Y ++ R =
            (P ++ d :: X ++ Q) ++ d :: (Y ++ R)) as ->.
    { app_normal. reflexivity. }
    rewrite middle_insert.
    - app_normal. reflexivity.
    - rewrite Eb, !length_app. simpl. rewrite !length_app. reflexivity. }
  pose proof (size_max_le size_bits size_bits_range) as Hm.
  assert (wrap size_bits (Z.of_nat (S (length X)) - 1) = Z.of_nat (length X))
    as ->.
  { replace (Z.of_nat (S (length X)) - 1) with (Z.of_nat (length X)) by lia.
    apply wrap_small. lia. }
  destruct X as [|c' X].
  - destruct Y; [|discriminate]. simpl. app_normal. reflexivity.
  - destruct (Z.eqb_spec (Z.of_nat (length (c' :: X))) 0) as [E|_];
      [simpl in E; lia|].
    rewrite (IH Y (P ++ [d]) (Q ++ [c]) R).
    + f_equal. f_equal.
      * app_normal. reflexivity.
      * app_normal. reflexivity.
    + discriminate.
    + simpl in *. lia.
    + simpl in *. lia.
    + simpl in *. lia.
    + rewrite length_app. cbn [length] in *. lia.
    + rewrite !length_app. cbn [length] in *. lia.
Qed.

Variable width : Z.
Hypothesis width_pos : 0 < width.
Variable nel : nat.
Hypothesis span_fits : width * Z.of_nat nel < 2 ^ size_bits.
Variable budget : nat.
Hypothesis budget_width : (Z.to_nat width <= budget)%nat.
Hypothesis budget_nel : (nel < budget)%nat.

Lemma well_formed_length (v : view) :
  well_formed width nel v ->
  Z.of_nat (length (mem (state_of v))) = width * Z.of_nat nel.
Proof.
  intros [Hl Hu]. simpl.
  rewrite (uniform_length_concat _ _ Hu), Hl. lia.
Qed.

Lemma well_formed_Permutation (v v' : view) :
  well_formed width nel v -> Permutation (elems v) (elems v') ->
  well_formed width nel v'.
Proof.
  intros [Hl Hu] Hp. split.
  - rewrite <- Hl. symmetry. apply Permutation_length. exact Hp.
  - apply (Permutation_uniform _ _ _ Hp Hu).
Qed.

Lemma fetch_elem (v : view) (j : nat) (x : list byte) :
  well_formed width nel v -> elems v !! j = Some x ->
  fetch width (width * Z.of_nat j) (state_of v) = Done x (state_of v).
Proof.
  intros Hwf Hx. pose proof (well_formed_length v Hwf) as Hlen.
  destruct Hwf as [Hl Hu].
  pose proof (lookup_lt_Some _ _ _ Hx) as Hj.
  rewrite fetch_ok by nia.
  f_equal. simpl.
  replace (Z.to_nat (width * Z.of_nat j)) with (Z.to_nat width * j)%nat by nia.
  apply uniform_element; assumption.
Qed.

Lemma call_comp_elems (v : view) (gap : Z) (j m : nat) (x y : list byte) :
  well_formed width nel v -> elems v !! j = Some x -> elems v !! m = Some y ->
  call_comp comp width gap (width * Z.of_nat j) (width * Z.of_nat m)
    (state_of v) =
  Done (comp x y)
    (state_of (mkView (elems v)
       (events v ++ [EvComp gap (width * Z.of_nat j) (width * Z.of_nat m)
                       (comp x y)]))).
Proof.
  intros Hwf Hx Hy. unfold call_comp, bind.
  rewrite (fetch_elem v j x Hwf Hx), (fetch_elem v m y Hwf Hy).
  reflexivity.
Qed.

Lemma swap_loop_elems (v : view) (j m : nat) (x y : list byte) :
  well_formed width nel v ->
  elems v !! j = Some x -> elems v !! m = Some y -> (j < m)%nat ->
  swap_loop size_bits budget (width * Z.of_nat j) (width * Z.of_nat m) width
    (state_of v) =
  Done tt
    (state_of (mkView (<[j := y]> (<[m := x]> (elems v)))
       (events v ++ swap_events (Z.to_nat width)
                      (width * Z.of_nat j) (width * Z.of_nat m)))).
Proof.
  intros [Hl Hu] Hx Hy Hjm.
  pose proof (lookup_lt_Some _ _ _ Hy) as Hm.
  pose proof (proj1 (Forall_lookup _ _) Hu) as Hlk.
  pose proof (Hlk _ _ Hx) as Lx. pose proof (Hlk _ _ Hy) as Ly.
  simpl in Lx, Ly.
  destruct (split_two _ _ _ _ _ Hx Hy Hjm) as (l1 & l2 & l3 & E & H1 & H2).
  assert (Forall (fun x => length x = Z.to_nat width) l1 /\
          Forall (fun x => length x = Z.to_nat width) l2) as [U1 U2].
  { rewrite E in Hu. apply Forall_app in Hu as [? Hu].
    apply Forall_cons in Hu as [_ Hu]. apply Forall_app in Hu as [? _].
    split; assumption. }
  unfold state_of. cbn [elems events].
  rewrite E at 2. rewrite (insert_two l1 l2 l3 x y j m H1) by lia.
  rewrite E.
  rewrite !concat_app. cbn [concat]. rewrite !concat_app. cbn [concat].
  replace width with (Z.of_nat (length x)) at 3 by lia.
  replace (Z.to_nat width) with (length x) at 1 by lia.
  apply swap_loop_segments.
  - intros ->. simpl in Lx. lia.
  - lia.
  - nia.
  - lia.
  - rewrite (uniform_length_concat _ _ U1). nia.
  - rewrite (uniform_length_concat _ _ U1), (uniform_length_concat _ _ U2). nia.
Qed.

Lemma walk_elems_well_formed (fuel g m : nat) (v : view) :
  (1 <= g)%nat -> well_formed width nel v ->
  well_formed width nel (walk_elems comp width fuel g m v).
Proof.
  intros Hg Hwf. apply (well_formed_Permutation v _ Hwf).
  apply walk_elems_Permutation. exact Hg.
Qed.

Lemma pass_elems_well_formed (k g i : nat) (v : view) :
  (1 <= g)%nat -> well_formed width nel v ->
  well_formed width nel (pass_elems comp width k g i v).
Proof.
  intros Hg Hwf. apply (well_formed_Permutation v _ Hwf).
  apply pass_elems_Permutation. exact Hg.
Qed.

(** The backward walk. *)
Lemma walk_loop_elems (f : nat) :
  forall (fuel g m : nat) (v : view),
    well_formed width nel v -> (1 <= g)%nat ->
    (m < nel)%nat -> (m < f)%nat -> (m < fuel)%nat ->
    walk_loop size_bits comp width budget fuel (Z.of_nat g)
      (width * Z.of_nat g) (width * Z.of_nat m) (state_of v) =
    Done tt (state_of (walk_elems comp width f g m v)).
Proof.
  induction f as [|f IH]; intros fuel g m v Hwf Hg Hm Hf Hfuel; [lia|].
  destruct fuel as [|fuel]; [lia|].
  cbn [walk_loop walk_elems].
  destruct (Nat.ltb_spec m g) as [Hlt|Hge];
    destruct (Z.ltb_spec (width * Z.of_nat m) (width * Z.of_nat g))
      as [Hlt'|Hge'];
    try nia; [reflexivity|].
  assert (is_Some (elems v !! (m - g)%nat)) as [x Hx].
  { apply lookup_lt_is_Some. destruct Hwf as [-> _]. lia. }
  assert (is_Some (elems v !! m)) as [y Hy].
  { apply lookup_lt_is_Some. destruct Hwf as [-> _]. lia. }
  rewrite Hx, Hy.
  replace (width * Z.of_nat m - width * Z.of_nat g)
    with (width * Z.of_nat (m - g)) by nia.
  replace (width * Z.of_nat (m - g) + width * Z.of_nat g)
    with (width * Z.of_nat m) by nia.
  unfold bind at 1.
  rewrite (call_comp_elems v _ _ _ x y Hwf Hx Hy).
  destruct (comp x y <=? 0); [reflexivity|].
  unfold bind at 1.
  assert (well_formed width nel (mkView (elems v)
                (events v ++ [EvComp (Z.of_nat g) (width * Z.of_nat (m - g))
                                (width * Z.of_nat m) (comp x y)]))) as Hwf'.
  { exact Hwf. }
  rewrite (swap_loop_elems _ (m - g)%nat m x y Hwf') by (simpl; auto; lia).
  cbn [elems events].
  rewrite <- app_assoc. cbn [app].
  apply IH; try lia.
  apply (well_formed_Permutation v); [exact Hwf|].
  cbn [elems]. apply exchange_Permutation; [exact Hx|exact Hy|lia].
Qed.

(** One pass. *)
Lemma pass_loop_elems (k : nat) :
  forall (fuel g i : nat) (v : view),
    well_formed width nel v -> (1 <= g)%nat ->
    (i + k = nel)%nat -> (k < fuel)%nat ->
    pass_loop size_bits comp width (width * Z.of_nat nel) budget fuel
      (Z.of_nat g) (width * Z.of_nat g) (width * Z.of_nat i) (state_of v) =
    Done tt (state_of (pass_elems comp width k g i v)).
Proof.
  induction k as [|k IH]; intros fuel g i v Hwf Hg Hik Hfuel;
    (destruct fuel as [|fuel]; [lia|]); cbn [pass_loop pass_elems].
  - destruct (Z.ltb_spec (width * Z.of_nat i) (width * Z.of_nat nel));
      [nia|reflexivity].
  - destruct (Z.ltb_spec (width * Z.of_nat i) (width * Z.of_nat nel));
      [|nia].
    unfold bind at 1.
    rewrite (walk_loop_elems (S i)) by (auto; lia).
    assert (wrap size_bits (width * Z.of_nat i + width) =
            width * Z.of_nat (S i)) as ->.
    { replace (width * Z.of_nat i + width) with (width * Z.of_nat (S i)) by nia.
      apply wrap_small. nia. }
    apply IH; try lia.
    apply walk_elems_well_formed; [exact Hg|exact Hwf].
Qed.

(** The passes. *)
Lemma gap_loop_elems (f : nat) :
  forall (fuel : nat) (gap : Z) (v : view),
    well_formed width nel v -> 0 <= gap <= Z.of_nat nel ->
    (Z.to_nat gap < f)%nat -> (Z.to_nat gap < fuel)%nat ->
    gap_loop size_bits comp width (width * Z.of_nat nel) budget fuel gap
      (state_of v) =
    Done tt (state_of (gap_elems size_bits comp width nel f gap v)).
Proof.
  induction f as [|f IH]; intros fuel gap v Hwf Hgap Hf Hfuel; [lia|].
  destruct fuel as [|fuel]; [lia|].
  cbn [gap_loop gap_elems].
  destruct (Z.ltb_spec 1 gap) as [H1|]; [|reflexivity].
  assert (gap < 2 ^ size_bits) as Hmax by nia.
  destruct (next_gap_halves size_bits size_bits_range gap ltac:(lia))
    as [Hn Hh].
  set (gap' := next_gap size_bits gap) in *.
  assert (gap' = Z.of_nat (Z.to_nat gap')) as Eg by lia.
  clearbody gap'. revert Eg. generalize (Z.to_nat gap') as g.
  intros g ->.
  assert (wrap size_bits (width * (Z.of_nat g)) = width * (Z.of_nat g)) as ->.
  { apply wrap_small. nia. }
  unfold bind at 1. unfold record at 1. unfold bind at 1.
  unfold builtin_assume.
  destruct (Z.ltb_spec (width * (Z.of_nat g)) (width * Z.of_nat nel)); [|nia].
  unfold ret at 1. unfold bind at 1.
  change (mkState (mem (state_of v))
            (log (state_of v) ++ [EvGap (Z.of_nat g) (width * Z.of_nat g)]))
    with (state_of
            (mkView (elems v)
               (events v ++ [EvGap (Z.of_nat g) (width * Z.of_nat g)]))).
  rewrite (pass_loop_elems (nel - g)) by (auto; lia).
  apply IH; try lia.
  apply pass_elems_well_formed; [lia|exact Hwf].
Qed.

End Refinement.

(** ** A buffer and the list of its elements *)

Lemma elements_step (width : Z) (buf : list byte) (n : nat) :
  map (element width buf) (seq 0 (S n)) =
  take (Z.to_nat width) buf ::
    map (element width (drop (Z.to_nat width) buf)) (seq 0 n).
Proof.
  cbn [seq map]. f_equal.
  - unfold element. rewrite Nat.mul_0_r. reflexivity.
  - rewrite <- seq_shift, map_map. apply map_ext. intros k.
    unfold element. rewrite drop_drop. f_equal. f_equal. lia.
Qed.

Lemma concat_elements (width nel : Z) (buf : list byte) :
  0 <= nel -> 0 <= width ->
  Z.of_nat (length buf) = width * nel ->
  concat (elements width nel buf) = buf.
Proof.
  intros Hn Hw. unfold elements.
  replace nel with (Z.of_nat (Z.to_nat nel)) at 1 by lia.
  generalize (Z.to_nat nel) as n. clear nel Hn.
  intros n. revert buf. induction n as [|n IH]; intros buf Hlen.
  - destruct buf; [reflexivity|]. simpl in Hlen. lia.
  - rewrite elements_step. cbn [concat]. rewrite IH.
    + apply take_drop.
    + rewrite length_drop. nia.
Qed.

Lemma elements_well_formed (width nel : Z) (buf : list byte) :
  0 <= nel -> 0 <= width ->
  Z.of_nat (length buf) = width * nel ->
  well_formed width (Z.to_nat nel) (mkView (elements width nel buf) []).
Proof.
  intros Hn Hw Hlen. split; cbn [elems].
  - unfold elements. rewrite length_map, length_seq. reflexivity.
  - unfold elements. apply Forall_forall. intros x Hx.
    apply list_elem_of_In, in_map_iff in Hx as (k & <- & Hk).
    apply in_seq in Hk. unfold element.
    rewrite length_take, length_drop. nia.
Qed.

Lemma elements_concat (width : Z) (xs : list (list byte)) :
  Forall (fun x => length x = Z.to_nat width) xs ->
  elements width (Z.of_nat (length xs)) (concat xs) = xs.
Proof.
  intros Hu. unfold elements. rewrite Nat2Z.id.
  induction Hu as [|x xs Hx Hu IH]; [reflexivity|].
  cbn [length]. rewrite elements_step. cbn [concat].
  rewrite take_app_length', drop_app_length' by congruence.
  rewrite IH. reflexivity.
Qed.

(** ** A valid call computes the element loops *)

Lemma qsort_budget_enough (nel width : Z) :
  (Z.to_nat width <= qsort_budget nel width)%nat /\
  (Z.to_nat nel < qsort_budget nel width)%nat.
Proof. unfold qsort_budget. lia. Qed.

Lemma qsort_body_elems (size_bits : Z) (comp : list byte -> list byte -> Z)
    (xs : list (list byte)) (evs : list event) (width : Z) (budget : nat) :
  0 < size_bits <= 64 -> 0 < width ->
  width * Z.of_nat (length xs) < 2 ^ size_bits ->
  Forall (fun x => length x = Z.to_nat width) xs ->
  (Z.to_nat width <= budget)%nat -> (length xs < budget)%nat ->
  qsort_body size_bits comp budget (Z.of_nat (length xs)) width
    (state_of (mkView xs evs)) =
  Done tt
    (state_of (gap_elems size_bits comp width (length xs) (S (length xs))
                 (Z.of_nat (length xs)) (mkView xs evs))).
Proof.
  intros Hb Hw Hs Hu Hbw Hbn. unfold qsort_body.
  rewrite (wrap_small size_bits (width * Z.of_nat (length xs))) by nia.
  apply gap_loop_elems; try assumption; try lia.
  split; [reflexivity|exact Hu].
Qed.

Lemma qsort_body_valid (size_bits : Z) (comp : list byte -> list byte -> Z)
    (base : list byte) (nel width : Z) (budget : nat) :
  valid_call size_bits base nel width ->
  (qsort_budget nel width <= budget)%nat ->
  qsort_body size_bits comp budget nel width (mkState base []) =
  Done tt
    (state_of (sort_elems size_bits comp width (elements width nel base))).
Proof.
  intros [Hb Hn Hw Hs Hl] Hbudget.
  destruct (elements_well_formed width nel base Hn ltac:(lia) Hl) as [Hlen Hu].
  cbn [elems] in Hlen, Hu.
  unfold sort_elems. rewrite Hlen.
  rewrite <- (concat_elements width nel base Hn ltac:(lia) Hl) at 1.
  change (mkState (concat (elements width nel base)) [])
    with (state_of (mkView (elements width nel base) [])).
  destruct (qsort_budget_enough nel width) as [B1 B2].
  pose proof (qsort_body_elems size_bits comp (elements width nel base) []
                width budget Hb Hw) as H.
  rewrite Hlen, Z2Nat.id in H by lia.
  rewrite Z2Nat.id by lia.
  apply H; [assumption|assumption|lia|lia].
Qed.

Lemma qsort_elems (size_bits : Z) (comp : list byte -> list byte -> Z)
    (base : list byte) (nel width : Z) :
  valid_call size_bits base nel width ->
  qsort size_bits comp base nel width =
  Done tt
    (state_of (sort_elems size_bits comp width (elements width nel base))).
Proof.
  intros Hv. unfold qsort. apply qsort_body_valid; [exact Hv|lia].
Qed.

(** A larger budget changes nothing. *)
Lemma qsort_budget_irrelevant (size_bits : Z)
    (comp : list byte -> list byte -> Z) (base : list byte) (nel width : Z)
    (budget : nat) :
  valid_call size_bits base nel width ->
  (qsort_budget nel width <= budget)%nat ->
  qsort_body size_bits comp budget nel width (mkState base []) =
  qsort size_bits comp base nel width.
Proof.
  intros Hv Hbudget.
  rewrite (qsort_elems size_bits comp base nel width Hv).
  apply qsort_body_valid; assumption.
Qed.

(** ** The last pass is an insertion sort *)

Lemma lookup_exchange {A} (xs : list A) (j m k : nat) (x y : A) :
  xs !! j = Some x -> xs !! m = Some y -> j <> m ->
  <[j := y]> (<[m := x]> xs) !! k =
  if decide (k = j) then Some y
  else if decide (k = m) then Some x
  else xs !! k.
Proof.
  intros Hj Hm Hne.
  pose proof (lookup_lt_Some _ _ _ Hj). pose proof (lookup_lt_Some _ _ _ Hm).
  destruct (decide (k = j)) as [->|Hkj].
  - apply list_lookup_insert_eq. rewrite length_insert. assumption.
  - rewrite list_lookup_insert_ne by congruence.
    destruct (decide (k = m)) as [->|Hkm].
    + apply list_lookup_insert_eq. assumption.
    + apply list_lookup_insert_ne. congruence.
Qed.

Section InsertionPass.

Variable comp : list byte -> list byte -> Z.
Variable width : Z.
(** All that sortedness needs of the comparator. *)
Hypothesis comp_converse : forall x y, 0 < comp x y -> comp y x < 0.

Lemma walk_elems_hole (fuel : nat) :
  forall (i m : nat) (v : view),
    (m < fuel)%nat -> hole comp i m (elems v) ->
    sorted_upto comp (S i) (elems (walk_elems comp width fuel 1 m v)).
Proof.
  induction fuel as [|fuel IH]; intros i m v Hf [H1 H2]; [lia|].
  cbn [walk_elems].
  destruct (Nat.ltb_spec m 1) as [Hm|Hm].
  { intros k x y Hk Hx Hy. apply (H1 k); auto; lia. }
  destruct (elems v !! (m - 1)%nat) as [x|] eqn:Hx.
  2:{ intros k x y Hk Hx' Hy'. destruct (decide (S k = m)) as [<-|].
      - replace (S k - 1)%nat with k in Hx by lia. congruence.
      - apply (H1 k); auto; lia. }
  destruct (elems v !! m) as [y|] eqn:Hy.
  2:{ intros k x' y' Hk Hx' Hy'. destruct (decide (S k = m)) as [<-|].
      - congruence.
      - apply (H1 k); auto; lia. }
  destruct (Z.leb_spec (comp x y) 0) as [Hle|Hgt].
  { cbn [elems]. intros k x' y' Hk Hx' Hy'.
    destruct (decide (S k = m)) as [<-|].
    - replace (S k - 1)%nat with k in Hx by lia.
      rewrite Hx in Hx'. rewrite Hy in Hy'.
      injection Hx' as <-. injection Hy' as <-. exact Hle.
    - apply (H1 k); auto; lia. }
  apply IH; [lia|]. cbn [elems].
  assert ((m - 1)%nat <> m) as Hne by lia.
  split.
  - intros k x' y' Hk Hkm.
    rewrite !(lookup_exchange _ _ _ _ _ _ Hx Hy Hne).
    destruct (Nat.eq_dec (S k) m) as [Ek|Nk].
    { rewrite (decide_True (P := k = (m - 1)%nat)) by lia.
      rewrite (decide_False (P := S k = (m - 1)%nat)) by lia.
      rewrite (decide_True (P := S k = m)) by lia.
      intros [= <-] [= <-]. pose proof (comp_converse _ _ Hgt). lia. }
    rewrite (decide_False (P := k = (m - 1)%nat)) by lia.
    rewrite (decide_False (P := S k = (m - 1)%nat)) by lia.
    rewrite (decide_False (P := S k = m)) by lia.
    destruct (Nat.eq_dec k m) as [->|Nm].
    { rewrite (decide_True (P := m = m)) by lia.
      intros [= <-] Hy'. apply (H2 (m - 1)%nat); auto; lia. }
    rewrite (decide_False (P := k = m)) by lia.
    intros Hx' Hy'. apply (H1 k); auto; lia.
  - intros k x' y' Hk Hkm.
    rewrite !(lookup_exchange _ _ _ _ _ _ Hx Hy Hne).
    rewrite (decide_False (P := k = (m - 1)%nat)) by lia.
    rewrite (decide_False (P := k = m)) by lia.
    rewrite (decide_False (P := S (m - 1) = (m - 1)%nat)) by lia.
    rewrite (decide_True (P := S (m - 1) = m)) by lia.
    intros Hx' [= <-]. apply (H1 k); auto; try lia.
    rewrite <- Hx. f_equal. lia.
Qed.

Lemma pass_elems_sorted (k : nat) :
  forall (i : nat) (v : view),
    sorted_upto comp i (elems v) ->
    sorted_upto comp (i + k) (elems (pass_elems comp width k 1 i v)).
Proof.
  induction k as [|k IH]; intros i v Hs; cbn [pass_elems].
  - rewrite Nat.add_0_r. exact Hs.
  - replace (i + S k)%nat with (S i + k)%nat by lia.
    apply IH. apply walk_elems_hole; [lia|].
    split.
    + intros j x y Hj Hne. apply Hs. lia.
    + intros; lia.
Qed.

Lemma insertion_pass_sorted (v : view) :
  sorted comp (elems (pass_elems comp width (length (elems v) - 1) 1 1 v)).
Proof.
  intros k x y Hx Hy.
  pose proof (pass_elems_Permutation comp width (length (elems v) - 1) 1 1 v
                ltac:(lia)) as Hp.
  apply Permutation_length in Hp.
  pose proof (lookup_lt_Some _ _ _ Hy) as Hlt.
  refine (pass_elems_sorted (length (elems v) - 1) 1 v _ k x y _ Hx Hy).
  - intros j ? ? Hj. lia.
  - lia.
Qed.

End InsertionPass.

(** ** The passes end with the insertion sort *)

Lemma short_sorted (comp : list byte -> list byte -> Z)
    (xs : list (list byte)) :
  (length xs <= 1)%nat -> sorted comp xs.
Proof.
  intros Hl k x y _ Hy. apply lookup_lt_Some in Hy. lia.
Qed.

Lemma gap_elems_sorted (size_bits : Z) (comp : list byte -> list byte -> Z)
    (width : Z) (fuel : nat) :
  0 < size_bits <= 64 ->
  (forall x y, 0 < comp x y -> comp y x < 0) ->
  forall (gap : Z) (v : view),
    0 <= gap < 2 ^ size_bits ->
    (Z.to_nat gap < fuel)%nat ->
    1 < gap \/ sorted comp (elems v) ->
    sorted comp
      (elems (gap_elems size_bits comp width (length (elems v)) fuel gap v)).
Proof.
  intros Hb Hc.
  induction fuel as [|fuel IH]; intros gap v Hgap Hf Hs; [lia|].
  cbn [gap_elems].
  destruct (Z.ltb_spec 1 gap) as [H1|H1].
  2:{ destruct Hs as [?|Hs]; [lia|exact Hs]. }
  destruct (next_gap_halves size_bits Hb gap ltac:(lia)) as [Hn Hh].
  set (gap' := next_gap size_bits gap) in *.
  set (v1 := mkView (elems v) (events v ++ [EvGap gap' (width * gap')])).
  set (v2 := pass_elems comp width (length (elems v) - Z.to_nat gap')
               (Z.to_nat gap') (Z.to_nat gap') v1).
  assert (length (elems v2) = length (elems v)) as El.
  { symmetry. apply Permutation_length.
    apply (pass_elems_Permutation comp width _ _ _ v1). lia. }
  rewrite <- El. apply IH; [lia|lia|].
  destruct (Z.ltb_spec 1 gap') as [?|Hg1]; [left; assumption|right].
  assert (Z.to_nat gap' = 1%nat) as E1 by lia.
  subst v2. rewrite E1.
  apply (insertion_pass_sorted comp width Hc v1).
Qed.

Lemma sort_elems_sorted (size_bits : Z) (comp : list byte -> list byte -> Z)
    (width : Z) (xs : list (list byte)) :
  0 < size_bits <= 64 ->
  Z.of_nat (length xs) < 2 ^ size_bits ->
  (forall x y, 0 < comp x y -> comp y x < 0) ->
  sorted comp (elems (sort_elems size_bits comp width xs)).
Proof.
  intros Hb Hl Hc. unfold sort_elems.
  apply (gap_elems_sorted size_bits comp width (S (length xs)) Hb Hc
           (Z.of_nat (length xs)) (mkView xs [])); [lia|lia|].
  cbn [elems].
  destruct (Z.ltb_spec 1 (Z.of_nat (length xs))); [left; assumption|right].
  apply short_sorted. lia.
Qed.

(** ** A sorted buffer is left alone *)

Section Ordered.

Variable comp : list byte -> list byte -> Z.
Hypothesis comp_swo : strict_weak_ordering comp.

Lemma comp_le_trans (x y z : list byte) :
  comp x y <= 0 -> comp y z <= 0 -> comp x z <= 0.
Proof.
  destruct comp_swo as [Hc Hl He]. intros Hxy Hyz.
  destruct (Z_lt_le_dec 0 (comp x z)) as [Hgt|]; [exfalso|assumption].
  pose proof Hgt as Hpos. apply Hc in Hgt.
  destruct (Z_le_lt_eq_dec _ _ Hxy) as [Lxy|Exy];
    destruct (Z_le_lt_eq_dec _ _ Hyz) as [Lyz|Eyz].
  - pose proof (Hl _ _ _ Lxy Lyz) as Lxz.
    pose proof (Hl _ _ _ Lxz Hgt) as Lxx.
    pose proof (proj2 (Hc x x) Lxx). lia.
  - pose proof (Hl _ _ _ Hgt Lxy) as Lzy.
    pose proof (proj2 (Hc y z) Lzy). lia.
  - pose proof (Hl _ _ _ Lyz Hgt) as Lyx.
    pose proof (proj2 (Hc x y) Lyx). lia.
  - pose proof (He _ _ _ Exy Eyz). lia.
Qed.

(** In a sorted list every element is in order with every later one. *)
Lemma sorted_all_pairs (xs : list (list byte)) :
  sorted comp xs ->
  forall (l k : nat) x y, (k < l)%nat ->
    xs !! k = Some x -> xs !! l = Some y -> comp x y <= 0.
Proof.
  intros Hs. induction l as [|l IH]; intros k x y Hk Hx Hy; [lia|].
  destruct (Nat.eq_dec k l) as [->|Hne].
  - apply (Hs l); assumption.
  - assert (is_Some (xs !! l)) as [z Hz].
    { apply lookup_lt_is_Some. apply lookup_lt_Some in Hy. lia. }
    apply (comp_le_trans x z y).
    + apply (IH k); [lia|assumption|assumption].
    + apply (Hs l); assumption.
Qed.

Variable width : Z.

Lemma walk_elems_ordered (fuel g m : nat) (v : view) :
  sorted comp (elems v) -> (1 <= g)%nat ->
  elems (walk_elems comp width fuel g m v) = elems v /\
  List.filter is_access (events (walk_elems comp width fuel g m v)) =
  List.filter is_access (events v).
Proof.
  intros Hs Hg. destruct fuel as [|fuel]; cbn [walk_elems]; [auto|].
  destruct (Nat.ltb_spec m g) as [|Hm]; [auto|].
  destruct (elems v !! (m - g)%nat) as [x|] eqn:Hx; [|auto].
  destruct (elems v !! m) as [y|] eqn:Hy; [|auto].
  pose proof (sorted_all_pairs _ Hs m (m - g)%nat x y ltac:(lia) Hx Hy) as Hle.
  destruct (Z.leb_spec (comp x y) 0); [|lia].
  cbn [elems events]. split; [reflexivity|].
  rewrite List.filter_app. cbn. apply app_nil_r.
Qed.

Lemma pass_elems_ordered (k g i : nat) (v : view) :
  sorted comp (elems v) -> (1 <= g)%nat ->
  elems (pass_elems comp width k g i v) = elems v /\
  List.filter is_access (events (pass_elems comp width k g i v)) =
  List.filter is_access (events v).
Proof.
  intros Hs Hg. revert i v Hs.
  induction k as [|k IH]; intros i v Hs; cbn [pass_elems]; [auto|].
  destruct (walk_elems_ordered (S i) g i v Hs Hg) as [E1 E2].
  destruct (IH (S i) (walk_elems comp width (S i) g i v)) as [E3 E4].
  { rewrite E1. exact Hs. }
  split; congruence.
Qed.

Lemma gap_elems_ordered (size_bits : Z) (nel fuel : nat) :
  0 < size_bits <= 64 ->
  forall (gap : Z) (v : view),
    gap < 2 ^ size_bits ->
    sorted comp (elems v) ->
    elems (gap_elems size_bits comp width nel fuel gap v) = elems v /\
    List.filter is_access
      (events (gap_elems size_bits comp width nel fuel gap v)) =
    List.filter is_access (events v).
Proof.
  intros Hb. induction fuel as [|fuel IH]; intros gap v Hgap Hs;
    cbn [gap_elems]; [auto|].
  destruct (Z.ltb_spec 1 gap) as [H1|]; [|auto].
  destruct (next_gap_halves size_bits Hb gap ltac:(lia)) as [Hn Hh].
  set (gap' := next_gap size_bits gap) in *.
  set (v1 := mkView (elems v) (events v ++ [EvGap gap' (width * gap')])).
  destruct (pass_elems_ordered (nel - Z.to_nat gap') (Z.to_nat gap')
              (Z.to_nat gap') v1 Hs ltac:(lia)) as [E1 E2].
  destruct (IH gap' (pass_elems comp width (nel - Z.to_nat gap')
                       (Z.to_nat gap') (Z.to_nat gap') v1)) as [E3 E4].
  { lia. }
  { rewrite E1. exact Hs. }
  split; [rewrite E3, E1; reflexivity|].
  rewrite E4, E2. subst v1. cbn [events].
  rewrite List.filter_app. cbn. apply app_nil_r.
Qed.

End Ordered.

(** ** Every step stays inside the buffer *)

Section Bounds.

Variable size_bits : Z.
Hypothesis size_bits_range : 0 < size_bits <= 64.
Variable comp : list byte -> list byte -> Z.
Variable width : Z.
Hypothesis width_pos : 0 < width.
Variable nel : nat.

Lemma swap_events_ok (n : nat) :
  forall a b : Z,
    0 <= a -> a + Z.of_nat n <= width * Z.of_nat nel ->
    0 <= b -> b + Z.of_nat n <= width * Z.of_nat nel ->
    Forall (event_ok width (Z.of_nat nel)) (swap_events n a b).
Proof.
  induction n as [|n IH]; intros a b Ha Ha' Hb Hb'; cbn [swap_events].
  - constructor.
  - repeat (constructor; [simpl; lia|]).
    apply IH; lia.
Qed.

Lemma walk_elems_events_ok (fuel g : nat) :
  forall (m : nat) (v : view),
    (1 <= g)%nat -> length (elems v) = nel ->
    Forall (event_ok width (Z.of_nat nel)) (events v) ->
    Forall (event_ok width (Z.of_nat nel))
      (events (walk_elems comp width fuel g m v)).
Proof.
  induction fuel as [|fuel IH]; intros m v Hg Hl Hok; cbn [walk_elems];
    [exact Hok|].
  destruct (Nat.ltb_spec m g) as [|Hm]; [exact Hok|].
  destruct (elems v !! (m - g)%nat) as [x|] eqn:Hx; [|exact Hok].
  destruct (elems v !! m) as [y|] eqn:Hy; [|exact Hok].
  pose proof (lookup_lt_Some _ _ _ Hy) as Hlt. rewrite Hl in Hlt.
  assert (event_ok width (Z.of_nat nel)
            (EvComp (Z.of_nat g) (width * Z.of_nat (m - g))
                (width * Z.of_nat m) (comp x y))) as Hc.
  { simpl. split; [exists (Z.of_nat (m - g)); lia|]. nia. }
  destruct (comp x y <=? 0).
  - cbn [events]. apply Forall_app. split; [exact Hok|].
    constructor; [exact Hc|constructor].
  - apply IH; [exact Hg| |].
    + cbn [elems]. rewrite !length_insert. exact Hl.
    + cbn [events]. apply Forall_app. split; [exact Hok|].
      constructor; [exact Hc|].
      apply swap_events_ok; nia.
Qed.

Lemma pass_elems_events_ok (k g : nat) :
  forall (i : nat) (v : view),
    (1 <= g)%nat -> length (elems v) = nel ->
    Forall (event_ok width (Z.of_nat nel)) (events v) ->
    Forall (event_ok width (Z.of_nat nel))
      (events (pass_elems comp width k g i v)).
Proof.
  induction k as [|k IH]; intros i v Hg Hl Hok; cbn [pass_elems];
    [exact Hok|].
  apply IH; [exact Hg| |].
  - rewrite <- Hl. symmetry. apply Permutation_length.
    apply walk_elems_Permutation. exact Hg.
  - apply walk_elems_events_ok; assumption.
Qed.

Lemma gap_elems_events_ok (fuel : nat) :
  forall (gap : Z) (v : view),
    gap <= Z.of_nat nel -> gap < 2 ^ size_bits ->
    length (elems v) = nel ->
    Forall (event_ok width (Z.of_nat nel)) (events v) ->
    Forall (event_ok width (Z.of_nat nel))
      (events (gap_elems size_bits comp width nel fuel gap v)).
Proof.
  induction fuel as [|fuel IH]; intros gap v Hgap Hmax Hl Hok;
    cbn [gap_elems]; [exact Hok|].
  destruct (Z.ltb_spec 1 gap) as [H1|]; [|exact Hok].
  destruct (next_gap_halves size_bits size_bits_range gap ltac:(lia))
    as [Hn Hh].
  set (gap' := next_gap size_bits gap) in *.
  apply IH; [lia|lia| |].
  - rewrite <- Hl. symmetry. apply Permutation_length.
    apply (pass_elems_Permutation comp width _ _ _
             (mkView (elems v) (events v ++ [EvGap gap' (width * gap')]))).
    lia.
  - apply pass_elems_events_ok; [lia|exact Hl|].
    cbn [events]. apply Forall_app. split; [exact Hok|].
    constructor; [|constructor].
    simpl. nia.
Qed.

End Bounds.

(** ** The gaps of the passes *)

Lemma gaps_of_app (l1 l2 : list event) :
  gaps_of (l1 ++ l2) = gaps_of l1 ++ gaps_of l2.
Proof.
  induction l1 as [|e l1 IH]; [reflexivity|].
  destruct e; cbn [app gaps_of]; rewrite IH; reflexivity.
Qed.

Lemma gaps_of_swap_events (n : nat) (a b : Z) :
  gaps_of (swap_events n a b) = [].
Proof.
  revert a b. induction n as [|n IH]; intros a b; cbn; [reflexivity|apply IH].
Qed.

Section Gaps.

Variable size_bits : Z.
Hypothesis size_bits_range : 0 < size_bits <= 64.
Variable comp : list byte -> list byte -> Z.
Variable width : Z.

Lemma walk_elems_gaps (fuel g : nat) :
  forall (m : nat) (v : view),
    gaps_of (events (walk_elems comp width fuel g m v)) = gaps_of (events v).
Proof.
  induction fuel as [|fuel IH]; intros m v; cbn [walk_elems]; [reflexivity|].
  destruct (m <? g)%nat; [reflexivity|].
  destruct (elems v !! (m - g)%nat) as [x|]; [|reflexivity].
  destruct (elems v !! m) as [y|]; [|reflexivity].
  destruct (comp x y <=? 0).
  - cbn [events]. rewrite gaps_of_app. cbn. apply app_nil_r.
  - rewrite IH. cbn [events]. rewrite gaps_of_app. cbn [gaps_of].
    rewrite gaps_of_swap_events. apply app_nil_r.
Qed.

Lemma pass_elems_gaps (k g : nat) :
  forall (i : nat) (v : view),
    gaps_of (events (pass_elems comp width k g i v)) = gaps_of (events v).
Proof.
  induction k as [|k IH]; intros i v; cbn [pass_elems]; [reflexivity|].
  rewrite IH. apply walk_elems_gaps.
Qed.

(** The passes log the gaps of a chain that starts from the first gap. *)
Lemma gap_elems_gaps (nel fuel : nat) :
  forall (gap : Z) (v : view),
    0 <= gap < 2 ^ size_bits -> (Z.to_nat gap < fuel)%nat ->
    exists l,
      gaps_of (events (gap_elems size_bits comp width nel fuel gap v)) =
      gaps_of (events v) ++ l /\
      gap_chain size_bits gap l.
Proof.
  induction fuel as [|fuel IH]; intros gap v Hgap Hf; [lia|].
  cbn [gap_elems].
  destruct (Z.ltb_spec 1 gap) as [H1|H1].
  2:{ exists []. split; [symmetry; apply app_nil_r|exact H1]. }
  destruct (next_gap_halves size_bits size_bits_range gap ltac:(lia))
    as [Hn Hh].
  set (gap' := next_gap size_bits gap) in *.
  edestruct (IH gap') as (l & El & Hl); [lia|lia|].
  exists (gap' :: l). split.
  - rewrite El, pass_elems_gaps. cbn [events].
    rewrite gaps_of_app. cbn [gaps_of]. rewrite <- app_assoc. reflexivity.
  - cbn [gap_chain]. auto.
Qed.

(** A chain decreases strictly, ends on one, and is short. *)
Lemma gap_chain_decreases (l : list Z) :
  forall gap : Z,
    0 <= gap < 2 ^ size_bits -> gap_chain size_bits gap l ->
    Sorted Z.gt (gap :: l) /\
    (l <> [] -> last l = Some 1) /\
    2 ^ Z.of_nat (length l) <= Z.max gap 1.
Proof.
  induction l as [|g l IH]; intros gap Hgap Hc; cbn [gap_chain] in Hc.
  - split; [repeat constructor|]. split; [congruence|]. simpl. lia.
  - destruct Hc as (H1 & -> & Hc).
    destruct (next_gap_halves size_bits size_bits_range gap ltac:(lia))
      as [Hn Hh].
    set (g := next_gap size_bits gap) in *.
    destruct (IH g ltac:(lia) Hc) as (Hs & Hlast & Hlen).
    split; [|split].
    + constructor; [exact Hs|]. constructor. lia.
    + intros _. destruct l as [|g' l].
      * cbn [gap_chain] in Hc. simpl. f_equal. lia.
      * rewrite last_cons. rewrite Hlast by discriminate. reflexivity.
    + cbn [length]. rewrite Nat2Z.inj_succ, Z.pow_succ_r by lia. lia.
Qed.

End Gaps.

(** ** The assumption given to the compiler *)

Lemma bind_assume_holds {A B} (m : M A) (k : A -> M B) (s : state) :
  assume_holds (m s) -> (forall a s', assume_holds (k a s')) ->
  assume_holds (bind m k s).
Proof.
  intros Hm Hk. unfold bind. destruct (m s) as [a s'| |]; auto.
Qed.

Lemma load_assume_holds (off : Z) (s : state) : assume_holds (load off s).
Proof.
  unfold load. destruct (if 0 <=? off then _ else _); exact I.
Qed.

Lemma store_assume_holds (off : Z) (v : byte) (s : state) :
  assume_holds (store off v s).
Proof. unfold store. destruct (_ && _); exact I. Qed.

Lemma fetch_assume_holds (width off : Z) (s : state) :
  assume_holds (fetch width off s).
Proof. unfold fetch. destruct (_ && _); exact I. Qed.

Section Assume.

Variable size_bits : Z.
Hypothesis size_bits_range : 0 < size_bits <= 64.
Variable comp : list byte -> list byte -> Z.
Variable width : Z.
Variable wnel : Z.
Variable budget : nat.

Lemma swap_loop_assume_holds (fuel : nat) :
  forall (a b n : Z) (s : state),
    assume_holds (swap_loop size_bits fuel a b n s).
Proof.
  induction fuel as [|fuel IH]; intros a b n s; cbn [swap_loop]; [exact I|].
  apply bind_assume_holds; [apply load_assume_holds|]. intros tmp s1.
  apply bind_assume_holds; [apply load_assume_holds|]. intros v s2.
  apply bind_assume_holds; [apply store_assume_holds|]. intros _ s3.
  apply bind_assume_holds; [apply store_assume_holds|]. intros _ s4.
  destruct (_ =? 0); [exact I|apply IH].
Qed.

Lemma call_comp_assume_holds (gap a b : Z) (s : state) :
  assume_holds (call_comp comp width gap a b s).
Proof.
  unfold call_comp.
  apply bind_assume_holds; [apply fetch_assume_holds|]. intros x s1.
  apply bind_assume_holds; [apply fetch_assume_holds|]. intros y s2.
  exact I.
Qed.

Lemma walk_loop_assume_holds (fuel : nat) :
  forall (gap wgap j : Z) (s : state),
    assume_holds (walk_loop size_bits comp width budget fuel gap wgap j s).
Proof.
  induction fuel as [|fuel IH]; intros gap wgap j s; cbn [walk_loop];
    [exact I|].
  destruct (j <? wgap); [exact I|].
  apply bind_assume_holds; [apply call_comp_assume_holds|]. intros r s1.
  destruct (r <=? 0); [exact I|].
  apply bind_assume_holds; [apply swap_loop_assume_holds|]. intros _ s2.
  apply IH.
Qed.

Lemma pass_loop_assume_holds (fuel : nat) :
  forall (gap wgap i : Z) (s : state),
    assume_holds
      (pass_loop size_bits comp width wnel budget fuel gap wgap i s).
Proof.
  induction fuel as [|fuel IH]; intros gap wgap i s; cbn [pass_loop];
    [exact I|].
  destruct (i <? wnel); [|exact I].
  apply bind_assume_holds; [apply walk_loop_assume_holds|]. intros _ s1.
  apply IH.
Qed.

(** As long as the gap is at most [nel], the gap after it is below
    [nel], and so the byte gap is below the byte count. *)
Lemma gap_loop_assume_holds (nel : Z) (fuel : nat) :
  0 < width -> width * nel < 2 ^ size_bits -> wnel = width * nel ->
  forall (gap : Z) (s : state),
    0 <= gap <= nel ->
    assume_holds
      (gap_loop size_bits comp width wnel budget fuel gap s).
Proof.
  intros Hw Hs Hwnel.
  induction fuel as [|fuel IH]; intros gap s Hgap; cbn [gap_loop];
    [exact I|].
  destruct (Z.ltb_spec 1 gap) as [H1|]; [|exact I].
  destruct (next_gap_halves size_bits size_bits_range gap ltac:(nia))
    as [Hn Hh].
  set (gap' := next_gap size_bits gap) in *.
  apply bind_assume_holds; [exact I|]. intros _ s1.
  apply bind_assume_holds.
  { unfold builtin_assume. rewrite wrap_small by nia.
    destruct (Z.ltb_spec (width * gap') wnel); [exact I|nia]. }
  intros _ s2.
  apply bind_assume_holds; [apply pass_loop_assume_holds|]. intros _ s3.
  apply IH. lia.
Qed.

End Assume.

(** ** The comparators of the examples *)

Lemma compare_by_swo (key : list byte -> Z) :
  strict_weak_ordering (compare_by key).
Proof.
  split; unfold compare_by.
  - intros x y. rewrite (Z.compare_antisym (key x) (key y)).
    destruct (key x ?= key y); simpl; lia.
  - intros x y z.
    destruct (Z.compare_spec (key x) (key y));
      destruct (Z.compare_spec (key y) (key z));
      destruct (Z.compare_spec (key x) (key z)); lia.
  - intros x y z.
    destruct (Z.compare_spec (key x) (key y));
      destruct (Z.compare_spec (key y) (key z));
      destruct (Z.compare_spec (key x) (key z)); lia.
Qed.

(** * The properties of [qsort] *)

(** What a valid call returns: the state of the element loops, whose buffer
    holds a permutation of the elements it held. *)
Lemma qsort_result (size_bits : Z) (comp : list byte -> list byte -> Z)
    (base : list byte) (nel width : Z) :
  valid_call size_bits base nel width ->
  let v := sort_elems size_bits comp width (elements width nel base) in
  qsort size_bits comp base nel width = Done tt (state_of v) /\
  elements width nel (mem (state_of v)) = elems v /\
  Permutation (elements width nel base) (elems v) /\
  length (mem (state_of v)) = length base.
Proof.
  intros Hv v. pose proof (qsort_elems size_bits comp base nel width Hv) as Hq.
  destruct Hv as [Hb Hn Hw Hs Hl].
  destruct (elements_well_formed width nel base Hn ltac:(lia) Hl) as [Hlen Hu].
  cbn [elems] in Hlen, Hu.
  assert (Permutation (elements width nel base) (elems v)) as Hp.
  { subst v. unfold sort_elems.
    apply (gap_elems_Permutation size_bits Hb comp width _ _ _ (mkView _ [])).
    rewrite Hlen. nia. }
  pose proof (Permutation_uniform _ _ _ Hp Hu) as Hu'.
  pose proof (Permutation_length Hp) as Hlen'.
  split; [exact Hq|]. split; [|split; [exact Hp|]].
  - cbn [state_of mem].
    replace nel with (Z.of_nat (length (elems v))) by lia.
    apply elements_concat. exact Hu'.
  - cbn [state_of mem]. rewrite (uniform_length_concat _ _ Hu'). nia.
Qed.

(** The buffer that a valid call leaves is sorted as soon as the comparator
    never calls two elements each greater than the other. *)
Lemma qsort_result_sorted (size_bits : Z) (comp : list byte -> list byte -> Z)
    (base : list byte) (nel width : Z) :
  valid_call size_bits base nel width ->
  (forall x y, 0 < comp x y -> comp y x < 0) ->
  exists s',
    qsort size_bits comp base nel width = Done tt s' /\
    length (mem s') = length base /\
    sorted comp (elements width nel (mem s')).
Proof.
  intros Hv Hc.
  destruct (qsort_result size_bits comp base nel width Hv)
    as (Hq & He & _ & Hlen).
  eexists. split; [exact Hq|]. split; [exact Hlen|]. rewrite He.
  destruct Hv as [Hb Hn Hw Hs Hl].
  apply sort_elems_sorted; [exact Hb| |exact Hc].
  unfold elements. rewrite length_map, length_seq. nia.
Qed.

(** The same with all that a valid call keeps: the buffer has its size, and
    its elements are those it had. *)
Lemma qsort_result_sorted_permuted (size_bits : Z)
    (comp : list byte -> list byte -> Z) (base : list byte) (nel width : Z) :
  valid_call size_bits base nel width ->
  (forall x y, 0 < comp x y -> comp y x < 0) ->
  exists s',
    qsort size_bits comp base nel width = Done tt s' /\
    length (mem s') = length base /\
    Permutation (elements width nel base) (elements width nel (mem s')) /\
    sorted comp (elements width nel (mem s')).
Proof.
  intros Hv Hc.
  destruct (qsort_result size_bits comp base nel width Hv)
    as (Hq & He & Hp & Hlen).
  eexists. split; [exact Hq|]. split; [exact Hlen|]. rewrite He.
  split; [exact Hp|].
  destruct Hv as [Hb Hn Hw Hs Hl].
  apply sort_elems_sorted; [exact Hb| |exact Hc].
  unfold elements. rewrite length_map, length_seq. nia.
Qed.

(** C1.  After a valid call with a comparator that is a strict weak
    ordering, the buffer, which has kept its size and its elements, is
    sorted: the comparator applied to any element and the next one returns
    a value that is at most zero, and so it does on any element and any
    later one. *)
Theorem qsort_sorted (size_bits : Z) (comp : list byte -> list byte -> Z)
    (base : list byte) (nel width : Z) :
  valid_call size_bits base nel width ->
  strict_weak_ordering comp ->
  exists s',
    qsort size_bits comp base nel width = Done tt s' /\
    length (mem s') = length base /\
    Permutation (elements width nel base) (elements width nel (mem s')) /\
    sorted comp (elements width nel (mem s')) /\
    forall (k l : nat) x y, (k < l)%nat ->
      elements width nel (mem s') !! k = Some x ->
      elements width nel (mem s') !! l = Some y ->
      comp x y <= 0.
Proof.
  intros Hv Hc.
  destruct (qsort_result_sorted_permuted size_bits comp base nel width Hv)
    as (s' & Hq & Hlen & Hp & Hs).
  { intros x y. apply (swo_converse comp Hc). }
  exists s'. split; [exact Hq|]. split; [exact Hlen|]. split; [exact Hp|].
  split; [exact Hs|].
  intros k l. apply (sorted_all_pairs comp Hc _ Hs l k).
Qed.

(** C2.  A valid call permutes the elements of the buffer: the elements
    after the call are the elements before it, each as often as before, and
    the buffer has kept its size. *)
Theorem qsort_permutes (size_bits : Z) (comp : list byte -> list byte -> Z)
    (base : list byte) (nel width : Z) :
  valid_call size_bits base nel width ->
  exists s',
    qsort size_bits comp base nel width = Done tt s' /\
    length (mem s') = length base /\
    Permutation (elements width nel base) (elements width nel (mem s')).
Proof.
  intros Hv.
  destruct (qsort_result size_bits comp base nel width Hv)
    as (Hq & He & Hp & Hl).
  eexists. split; [exact Hq|]. split; [exact Hl|]. rewrite He. exact Hp.
Qed.

(** C3.  With no element or a single one, [qsort] returns at once: the
    comparator is not called, nothing is swapped (the log is empty) and the
    buffer is as it was. *)
Theorem qsort_degenerate (size_bits : Z) (comp : list byte -> list byte -> Z)
    (base : list byte) (nel width : Z) :
  nel = 0 \/ nel = 1 ->
  qsort size_bits comp base nel width = Done tt (mkState base []).
Proof.
  intros [-> | ->]; reflexivity.
Qed.

(** C4.  The gap starts at [nel]; each pass replaces it by
    [(5 * gap - 1) / 11], or by 1 when that is 0, which is less than the gap
    whenever [5 * gap] fits 64 bits.  The gaps of the passes of a valid call
    form that chain, decrease strictly from [nel], end on 1 when there is a
    pass at all, and there are at most [log2 nel] of them. *)
Theorem gap_sequence (size_bits : Z) (comp : list byte -> list byte -> Z)
    (base : list byte) (nel width : Z) :
  valid_call size_bits base nel width ->
  (forall gap, 1 < gap < 2 ^ size_bits -> 5 * gap < 2 ^ 64 ->
     next_gap size_bits gap = Z.max 1 ((5 * gap - 1) / 11) /\
     next_gap size_bits gap < gap) /\
  exists s',
    qsort size_bits comp base nel width = Done tt s' /\
    gap_chain size_bits nel (gaps_of (log s')) /\
    Sorted Z.gt (nel :: gaps_of (log s')) /\
    (1 < nel -> last (gaps_of (log s')) = Some 1) /\
    2 ^ Z.of_nat (length (gaps_of (log s'))) <= Z.max nel 1.
Proof.
  intros Hv. split.
  - intros gap Hg Hno. destruct Hv as [Hb _ _ _ _].
    split; [apply next_gap_exact; assumption|].
    destruct (next_gap_halves size_bits Hb gap Hg). lia.
  - destruct (qsort_result size_bits comp base nel width Hv) as (Hq & _).
    eexists. split; [exact Hq|].
    destruct Hv as [Hb Hn Hw Hs Hl].
    cbn [state_of log]. unfold sort_elems.
    assert (length (elements width nel base) = Z.to_nat nel) as ->.
    { unfold elements. rewrite length_map, length_seq. reflexivity. }
    rewrite Z2Nat.id by lia.
    assert (0 <= nel < 2 ^ size_bits) as Hr by nia.
    destruct (gap_elems_gaps size_bits Hb comp width (Z.to_nat nel)
                (S (Z.to_nat nel)) nel (mkView (elements width nel base) [])
                Hr ltac:(lia)) as (l & -> & Hc).
    cbn [events gaps_of app].
    destruct (gap_chain_decreases size_bits Hb l nel Hr Hc) as (H1 & H2 & H3).
    split; [exact Hc|]. split; [exact H1|]. split; [|exact H3].
    intros Hnel. apply H2. intros ->. cbn [gap_chain] in Hc. lia.
Qed.

(** C5.  A valid call on a buffer that is sorted under a strict weak
    ordering leaves every byte where it is and swaps nothing, whatever it
    compares; so a second call on the result of a first one changes
    nothing. *)
Theorem qsort_idempotent (size_bits : Z) (comp : list byte -> list byte -> Z)
    (base : list byte) (nel width : Z) :
  valid_call size_bits base nel width ->
  strict_weak_ordering comp ->
  (sorted comp (elements width nel base) ->
   exists s',
     qsort size_bits comp base nel width = Done tt s' /\
     mem s' = base /\
     List.filter is_access (log s') = []) /\
  (exists s1 s2,
     qsort size_bits comp base nel width = Done tt s1 /\
     qsort size_bits comp (mem s1) nel width = Done tt s2 /\
     mem s2 = mem s1).
Proof.
  intros Hv Hc.
  assert (forall base0, valid_call size_bits base0 nel width ->
            sorted comp (elements width nel base0) ->
            exists s', qsort size_bits comp base0 nel width = Done tt s' /\
                       mem s' = base0 /\
                       List.filter is_access (log s') = []) as Hsorted.
  { intros base0 Hv0 Hs.
    destruct (qsort_result size_bits comp base0 nel width Hv0) as (Hq & _).
    eexists. split; [exact Hq|].
    destruct Hv0 as [Hb Hn Hw Hsp Hl].
    assert (Z.of_nat (length (elements width nel base0)) < 2 ^ size_bits) as Hr.
    { unfold elements. rewrite length_map, length_seq. nia. }
    destruct (gap_elems_ordered comp Hc width size_bits
                (length (elements width nel base0))
                (S (length (elements width nel base0))) Hb
                (Z.of_nat (length (elements width nel base0)))
                (mkView (elements width nel base0) []) Hr Hs) as [E1 E2].
    unfold sort_elems. cbn [state_of mem log].
    rewrite E1, E2. cbn [elems events]. split; [|reflexivity].
    apply concat_elements; lia. }
  split; [apply Hsorted; exact Hv|].
  destruct (qsort_result_sorted size_bits comp base nel width Hv)
    as (s1 & Hq1 & Hl1 & Hs1).
  { intros x y. apply (swo_converse comp Hc). }
  assert (valid_call size_bits (mem s1) nel width) as Hv1.
  { destruct Hv as [Hb Hn Hw Hsp Hl]. split; try assumption.
    rewrite Hl1. exact Hl. }
  destruct (Hsorted (mem s1) Hv1 Hs1) as (s2 & Hq2 & Hm2 & _).
  exists s1, s2. auto.
Qed.

(** C6.  Six 32-bit integers 5, 3, 8, 1, 9, 2 under the ascending
    comparator come out as 1, 2, 3, 5, 8, 9, with a 32-bit and with a
    64-bit [size_t]. *)
Theorem qsort_example :
  (exists s', qsort 32 ascending example_ints 6 4 = Done tt s' /\
              mem s' = example_sorted) /\
  (exists s', qsort 64 ascending example_ints 6 4 = Done tt s' /\
              mem s' = example_sorted).
Proof.
  split; eexists; (split; [vm_compute; reflexivity|reflexivity]).
Qed.

(** C7.  In a call with [width > 0] and [width * nel] inside [size_t], the
    condition given to [__builtin_assume] holds whenever it is reached,
    whatever the buffer and the step budget; and each pass of a valid call
    has a gap below [nel] and a byte gap [width * gap] below the byte count
    [width * nel], both as computed on [size_t]. *)
Theorem builtin_assume_holds (size_bits : Z)
    (comp : list byte -> list byte -> Z) (base : list byte) (nel width : Z) :
  valid_call size_bits base nel width ->
  (forall (budget : nat) (s : state),
     assume_holds (qsort_body size_bits comp budget nel width s)) /\
  exists s',
    qsort size_bits comp base nel width = Done tt s' /\
    forall gap wgap, In (EvGap gap wgap) (log s') ->
      1 <= gap < nel /\
      wgap = wrap size_bits (width * gap) /\
      wrap size_bits (width * gap) < wrap size_bits (width * nel).
Proof.
  intros Hv. split.
  - destruct Hv as [Hb Hn Hw Hs Hl]. intros budget s. unfold qsort_body.
    apply (gap_loop_assume_holds size_bits Hb comp width _ budget nel budget
             Hw Hs); [apply wrap_small; nia|lia].
  - destruct (qsort_result size_bits comp base nel width Hv) as (Hq & _).
    eexists. split; [exact Hq|].
    destruct Hv as [Hb Hn Hw Hs Hl].
    assert (length (elements width nel base) = Z.to_nat nel) as Hlen.
    { unfold elements. rewrite length_map, length_seq. reflexivity. }
    pose proof (gap_elems_events_ok size_bits Hb comp width Hw (Z.to_nat nel)
                  (S (Z.to_nat nel)) nel (mkView (elements width nel base) [])
                  ltac:(lia) ltac:(nia) Hlen (Forall_nil_2 _)) as Hok.
    cbn [state_of log]. unfold sort_elems. rewrite Hlen, Z2Nat.id by lia.
    intros gap wgap Hin.
    rewrite Forall_forall in Hok. apply list_elem_of_In, Hok in Hin.
    rewrite Z2Nat.id in Hin by lia. simpl in Hin.
    destruct Hin as (Hg & -> & Hlt).
    rewrite !wrap_small by nia. auto.
Qed.

(** C8.  [qsort] is not stable: on five two-byte elements ordered by their
    first byte, the two elements that start with 2, which compare equal and
    differ in their second byte, come out in the other order. *)
Theorem qsort_not_stable :
  exists (comp : list byte -> list byte -> Z) (base : list byte)
         (nel width : Z) (s' : state) (x y : list byte) (i j i' j' : nat),
    strict_weak_ordering comp /\
    valid_call 32 base nel width /\
    qsort 32 comp base nel width = Done tt s' /\
    NoDup (elements width nel base) /\
    comp x y = 0 /\ x <> y /\
    elements width nel base !! i = Some x /\
    elements width nel base !! j = Some y /\
    (i < j)%nat /\
    elements width nel (mem s') !! i' = Some x /\
    elements width nel (mem s') !! j' = Some y /\
    (j' < i')%nat.
Proof.
  exists by_first_byte, example_tagged, 5, 2.
  eexists. exists [x02; x00], [x02; x01], 0%nat, 1%nat, 2%nat, 1%nat.
  split; [apply compare_by_swo|].
  split; [split; first [lia | vm_compute; reflexivity]|].
  split; [vm_compute; reflexivity|].
  split.
  { vm_compute.
    repeat (apply NoDup_cons; split;
            [rewrite list_elem_of_In; simpl; intuition discriminate|]).
    apply NoDup_nil_2. }
  split; [reflexivity|]. split; [discriminate|].
  repeat split; first [reflexivity | lia].
Qed.

(** C9.  A valid call runs to its end without an access outside the
    buffer: each byte of the log is loaded or stored inside
    [[0, width * nel)], and each comparator call is given two whole elements
    of the buffer, the second [width * gap] bytes after the first; the
    buffer keeps its size. *)
Theorem qsort_in_bounds (size_bits : Z) (comp : list byte -> list byte -> Z)
    (base : list byte) (nel width : Z) :
  valid_call size_bits base nel width ->
  exists s',
    qsort size_bits comp base nel width = Done tt s' /\
    length (mem s') = length base /\
    Forall (event_ok width nel) (log s').
Proof.
  intros Hv.
  destruct (qsort_result size_bits comp base nel width Hv)
    as (Hq & _ & _ & Hlen').
  eexists. split; [exact Hq|]. split; [exact Hlen'|].
  destruct Hv as [Hb Hn Hw Hs Hl].
  assert (length (elements width nel base) = Z.to_nat nel) as Hlen.
  { unfold elements. rewrite length_map, length_seq. reflexivity. }
  pose proof (gap_elems_events_ok size_bits Hb comp width Hw (Z.to_nat nel)
                (S (Z.to_nat nel)) nel (mkView (elements width nel base) [])
                ltac:(lia) ltac:(nia) Hlen (Forall_nil_2 _)) as Hok.
  cbn [state_of log]. unfold sort_elems. rewrite Hlen, Z2Nat.id by lia.
  rewrite Z2Nat.id in Hok by lia. exact Hok.
Qed.

(** * Further runs of the model *)

(** A descending buffer takes two passes, with gaps 2 and 1. *)
Example qsort_descending :
  exists s',
    qsort 32 ascending (buffer_of 4 [9; 8; 7; 6; 5]) 5 4 = Done tt s' /\
    mem s' = buffer_of 4 [5; 6; 7; 8; 9] /\
    gaps_of (log s') = [2; 1] /\
    calls_of (log s') =
      [(0, 8); (4, 12); (8, 16); (0, 8); (0, 4); (4, 8); (8, 12); (12, 16)].
Proof.
  eexists. split; [vm_compute; reflexivity|]. repeat split.
Qed.

(** Equal elements are compared and never swapped. *)
Example qsort_all_equal :
  qsort 32 ascending example_equal 4 4 =
  Done tt (mkState example_equal
             [EvGap 1 4; EvComp 1 0 4 0; EvComp 1 4 8 0; EvComp 1 8 12 0]).
Proof. vm_compute. reflexivity. Qed.

(** Outside the preconditions the behaviour is undefined: a buffer that is
    too short is overrun by the comparator, and zero-width elements make the
    condition of [__builtin_assume] false. *)
Example qsort_short_buffer :
  qsort 32 ascending (buffer_of 4 [5; 3]) 3 4 = Undefined (OutOfBounds 8).
Proof. vm_compute. reflexivity. Qed.

Example qsort_zero_width :
  qsort 32 ascending (buffer_of 4 [5; 3]) 3 0 = Undefined (AssumeViolated 0 0).
Proof. vm_compute. reflexivity. Qed.

(** * The theorems at work on the examples *)

Lemma qsort_sorted_witness :
  valid_call 32 example_ints 6 4 /\
  strict_weak_ordering ascending /\
  exists s',
    qsort 32 ascending example_ints 6 4 = Done tt s' /\
    length (mem s') = length example_ints /\
    Permutation (elements 4 6 example_ints) (elements 4 6 (mem s')) /\
    sorted ascending (elements 4 6 (mem s')) /\
    forall (k l : nat) x y, (k < l)%nat ->
      elements 4 6 (mem s') !! k = Some x ->
      elements 4 6 (mem s') !! l = Some y ->
      ascending x y <= 0.
Proof.
  assert (valid_call 32 example_ints 6 4) as Hv.
  { split; first [lia | vm_compute; reflexivity]. }
  assert (strict_weak_ordering ascending) as Hc.
  { apply compare_by_swo. }
  split; [exact Hv|]. split; [exact Hc|].
  apply (qsort_sorted 32 ascending example_ints 6 4 Hv Hc).
Defined.

Lemma qsort_permutes_witness :
  valid_call 32 example_ints 6 4 /\
  exists s',
    qsort 32 ascending example_ints 6 4 = Done tt s' /\
    length (mem s') = length example_ints /\
    Permutation (elements 4 6 example_ints) (elements 4 6 (mem s')).
Proof.
  assert (valid_call 32 example_ints 6 4) as Hv.
  { split; first [lia | vm_compute; reflexivity]. }
  split; [exact Hv|].
  apply (qsort_permutes 32 ascending example_ints 6 4 Hv).
Defined.

Lemma qsort_degenerate_witness :
  qsort 32 ascending (buffer_of 4 [5]) 1 4 =
  Done tt (mkState (buffer_of 4 [5]) []).
Proof.
  apply (qsort_degenerate 32 ascending (buffer_of 4 [5]) 1 4).
  right. reflexivity.
Defined.

Lemma gap_sequence_witness :
  valid_call 32 example_ints 6 4 /\
  exists s',
    qsort 32 ascending example_ints 6 4 = Done tt s' /\
    gap_chain 32 6 (gaps_of (log s')) /\
    Sorted Z.gt (6 :: gaps_of (log s')) /\
    (1 < 6 -> last (gaps_of (log s')) = Some 1) /\
    2 ^ Z.of_nat (length (gaps_of (log s'))) <= Z.max 6 1.
Proof.
  assert (valid_call 32 example_ints 6 4) as Hv.
  { split; first [lia | vm_compute; reflexivity]. }
  split; [exact Hv|].
  apply (gap_sequence 32 ascending example_ints 6 4 Hv).
Defined.

Lemma qsort_idempotent_witness :
  valid_call 32 example_equal 4 4 /\
  strict_weak_ordering ascending /\
  sorted ascending (elements 4 4 example_equal) /\
  (exists s',
     qsort 32 ascending example_equal 4 4 = Done tt s' /\
     mem s' = example_equal /\
     List.filter is_access (log s') = []) /\
  (exists s1 s2,
     qsort 32 ascending example_equal 4 4 = Done tt s1 /\
     qsort 32 ascending (mem s1) 4 4 = Done tt s2 /\
     mem s2 = mem s1).
Proof.
  assert (valid_call 32 example_equal 4 4) as Hv.
  { split; first [lia | vm_compute; reflexivity]. }
  assert (strict_weak_ordering ascending) as Hc.
  { apply compare_by_swo. }
  assert (sorted ascending (elements 4 4 example_equal)) as Hs.
  { intros k x y.
    destruct k as [|[|[|[|k]]]]; vm_compute; intros Hx Hy;
      try discriminate Hy;
      injection Hx as <-; injection Hy as <-; vm_compute; discriminate. }
  split; [exact Hv|]. split; [exact Hc|]. split; [exact Hs|].
  destruct (qsort_idempotent 32 ascending example_equal 4 4 Hv Hc) as [H1 H2].
  split; [exact (H1 Hs)|exact H2].
Defined.

Lemma builtin_assume_holds_witness :
  valid_call 32 example_ints 6 4 /\
  (forall (budget : nat) (s : state),
     assume_holds (qsort_body 32 ascending budget 6 4 s)) /\
  exists s',
    qsort 32 ascending example_ints 6 4 = Done tt s' /\
    forall gap wgap, In (EvGap gap wgap) (log s') ->
      1 <= gap < 6 /\
      wgap = wrap 32 (4 * gap) /\
      wrap 32 (4 * gap) < wrap 32 (4 * 6).
Proof.
  assert (valid_call 32 example_ints 6 4) as Hv.
  { split; first [lia | vm_compute; reflexivity]. }
  split; [exact Hv|].
  apply (builtin_assume_holds 32 ascending example_ints 6 4 Hv).
Defined.

Lemma qsort_in_bounds_witness :
  valid_call 32 example_ints 6 4 /\
  exists s',
    qsort 32 ascending example_ints 6 4 = Done tt s' /\
    length (mem s') = length example_ints /\
    Forall (event_ok 4 6) (log s').
Proof.
  assert (valid_call 32 example_ints 6 4) as Hv.
  { split; first [lia | vm_compute; reflexivity]. }
  split; [exact Hv|].
  apply (qsort_in_bounds 32 ascending example_ints 6 4 Hv).
Defined.

(** * Further properties of [qsort] *)

(** ** Elements of no width *)

(** With [width = 0] and at least two elements both byte counts are zero,
    and the first pass gives [__builtin_assume] the false condition
    [0 < 0]: the behaviour is undefined, whatever the buffer and the
    comparator. *)
Theorem qsort_zero_width_undefined (size_bits : Z)
    (comp : list byte -> list byte -> Z) (base : list byte) (nel : Z) :
  1 < nel ->
  qsort size_bits comp base nel 0 = Undefined (AssumeViolated 0 0).
Proof.
  intros Hnel. unfold qsort, qsort_body, qsort_budget. cbn [gap_loop].
  destruct (Z.ltb_spec 1 nel); [|lia].
  rewrite !Z.mul_0_l. unfold wrap. rewrite Zmod_0_l. reflexivity.
Qed.

Lemma qsort_zero_width_undefined_witness :
  qsort 32 ascending example_ints 6 0 = Undefined (AssumeViolated 0 0).
Proof.
  apply (qsort_zero_width_undefined 32 ascending example_ints 6). lia.
Defined.

(** ** Comparators that are no orderings *)

(** The buffer keeps its size and its elements and comes out with every
    element in order with the next one as soon as the comparator never
    calls two elements each greater than the other; it need not be
    transitive. *)
Theorem qsort_sorted_without_transitivity (size_bits : Z)
    (comp : list byte -> list byte -> Z) (base : list byte) (nel width : Z) :
  valid_call size_bits base nel width ->
  (forall x y, 0 < comp x y -> comp y x < 0) ->
  exists s',
    qsort size_bits comp base nel width = Done tt s' /\
    length (mem s') = length base /\
    Permutation (elements width nel base) (elements width nel (mem s')) /\
    sorted comp (elements width nel (mem s')).
Proof.
  intros Hv Hc.
  apply (qsort_result_sorted_permuted size_bits comp base nel width Hv Hc).
Qed.

Lemma cyclic_converse (x y : list byte) : 0 < cyclic x y -> cyclic y x < 0.
Proof.
  unfold cyclic.
  pose proof (Z.mod_pos_bound (le_value x - le_value y) 3 ltac:(lia)) as B1.
  pose proof (Z.mod_pos_bound (le_value y - le_value x) 3 ltac:(lia)) as B2.
  pose proof (Z.div_mod (le_value x - le_value y) 3 ltac:(lia)) as D1.
  pose proof (Z.div_mod (le_value y - le_value x) 3 ltac:(lia)) as D2.
  destruct ((le_value x - le_value y) mod 3) as [|[p|p|]|p] eqn:E1;
    destruct ((le_value y - le_value x) mod 3) as [|[q|q|]|q] eqn:E2;
    lia.
Qed.

(** [cyclic] is not transitive: 0 is below 1, 1 below 2, and 2 below 0. *)
Lemma cyclic_not_transitive :
  cyclic (le_bytes 1 0) (le_bytes 1 1) < 0 /\
  cyclic (le_bytes 1 1) (le_bytes 1 2) < 0 /\
  0 < cyclic (le_bytes 1 0) (le_bytes 1 2).
Proof. repeat split. Qed.

Lemma qsort_sorted_without_transitivity_witness :
  valid_call 32 example_ints 6 4 /\
  exists s',
    qsort 32 cyclic example_ints 6 4 = Done tt s' /\
    length (mem s') = length example_ints /\
    Permutation (elements 4 6 example_ints) (elements 4 6 (mem s')) /\
    sorted cyclic (elements 4 6 (mem s')).
Proof.
  assert (valid_call 32 example_ints 6 4) as Hv.
  { split; first [lia | vm_compute; reflexivity]. }
  split; [exact Hv|].
  apply (qsort_sorted_without_transitivity 32 cyclic example_ints 6 4 Hv).
  exact cyclic_converse.
Defined.

(** ** The shape of the log *)

Lemma well_shaped_app (width : Z) (l1 l2 : list event) :
  well_shaped width l1 -> well_shaped width l2 ->
  well_shaped width (l1 ++ l2).
Proof.
  intros H1 H2. induction H1 as [|gap wgap l _ IH|gap a b r l Hr _ IH
                                  |gap a b r l Hr _ IH]; cbn [app].
  - exact H2.
  - apply shape_gap. exact IH.
  - apply shape_keep; assumption.
  - rewrite <- app_assoc. apply shape_swap; assumption.
Qed.

Section Shape.

Variable size_bits : Z.
Variable comp : list byte -> list byte -> Z.
Variable width : Z.

Lemma walk_elems_shape (fuel g : nat) :
forall (m : nat) (v : view),
  well_shaped width (events v) ->
  well_shaped width (events (walk_elems comp width fuel g m v)).
Proof.
induction fuel as [|fuel IH]; intros m v Hs; cbn [walk_elems]; [exact Hs|].
destruct (m <? g)%nat; [exact Hs|].
destruct (elems v !! (m - g)%nat) as [x|]; [|exact Hs].
destruct (elems v !! m) as [y|]; [|exact Hs].
destruct (Z.leb_spec (comp x y) 0) as [Hle|Hgt].
- cbn [events]. apply well_shaped_app; [exact Hs|].
  apply shape_keep; [exact Hle|apply shape_nil].
- apply IH. cbn [events]. apply well_shaped_app; [exact Hs|].
  rewrite <- (app_nil_r (swap_events _ _ _)).
  apply shape_swap; [exact Hgt|apply shape_nil].
Qed.

Lemma pass_elems_shape (k g : nat) :
forall (i : nat) (v : view),
  well_shaped width (events v) ->
  well_shaped width (events (pass_elems comp width k g i v)).
Proof.
induction k as [|k IH]; intros i v Hs; cbn [pass_elems]; [exact Hs|].
apply IH, walk_elems_shape, Hs.
Qed.

Lemma gap_elems_shape (nel fuel : nat) :
forall (gap : Z) (v : view),
  well_shaped width (events v) ->
  well_shaped width
    (events (gap_elems size_bits comp width nel fuel gap v)).
Proof.
induction fuel as [|fuel IH]; intros gap v Hs; cbn [gap_elems]; [exact Hs|].
destruct (1 <? gap); [|exact Hs].
apply IH, pass_elems_shape. cbn [events].
apply well_shaped_app; [exact Hs|]. apply shape_gap, shape_nil.
Qed.

End Shape.

(** The swap loop runs exactly after the comparisons that returned a
    positive value, each time on the two elements just compared, and no
    byte is loaded or stored otherwise. *)
Theorem qsort_swaps_after_positive (size_bits : Z)
    (comp : list byte -> list byte -> Z) (base : list byte) (nel width : Z) :
  valid_call size_bits base nel width ->
  exists s',
    qsort size_bits comp base nel width = Done tt s' /\
    well_shaped width (log s').
Proof.
  intros Hv.
  destruct (qsort_result size_bits comp base nel width Hv) as (Hq & _).
  eexists. split; [exact Hq|].
  cbn [state_of log]. unfold sort_elems.
  apply gap_elems_shape. cbn [events]. apply shape_nil.
Qed.

Lemma qsort_swaps_after_positive_witness :
  valid_call 32 example_ints 6 4 /\
  exists s',
    qsort 32 ascending example_ints 6 4 = Done tt s' /\
    well_shaped 4 (log s').
Proof.
  assert (valid_call 32 example_ints 6 4) as Hv.
  { split; first [lia | vm_compute; reflexivity]. }
  split; [exact Hv|].
  apply (qsort_swaps_after_positive 32 ascending example_ints 6 4 Hv).
Defined.

(** ** What the last pass compares *)

Section Coverage.

Variable size_bits : Z.
Hypothesis size_bits_range : 0 < size_bits <= 64.
Variable comp : list byte -> list byte -> Z.
Variable width : Z.

Lemma walk_elems_keeps (fuel g : nat) :
forall (m : nat) (v : view) (e : event),
  In e (events v) -> In e (events (walk_elems comp width fuel g m v)).
Proof.
induction fuel as [|fuel IH]; intros m v e He; cbn [walk_elems]; [exact He|].
destruct (m <? g)%nat; [exact He|].
destruct (elems v !! (m - g)%nat) as [x|]; [|exact He].
destruct (elems v !! m) as [y|]; [|exact He].
destruct (comp x y <=? 0).
- cbn [events]. apply in_or_app. left. exact He.
- apply IH. cbn [events]. apply in_or_app. left. exact He.
Qed.

Lemma pass_elems_keeps (k g : nat) :
forall (i : nat) (v : view) (e : event),
  In e (events v) -> In e (events (pass_elems comp width k g i v)).
Proof.
induction k as [|k IH]; intros i v e He; cbn [pass_elems]; [exact He|].
apply IH, walk_elems_keeps, He.
Qed.

Lemma gap_elems_keeps (nel fuel : nat) :
forall (gap : Z) (v : view) (e : event),
  In e (events v) ->
  In e (events (gap_elems size_bits comp width nel fuel gap v)).
Proof.
induction fuel as [|fuel IH]; intros gap v e He; cbn [gap_elems];
  [exact He|].
destruct (1 <? gap); [|exact He].
apply IH, pass_elems_keeps. cbn [events]. apply in_or_app. left. exact He.
Qed.

(** A walk of gap 1 begins by comparing the element with the one before. *)
Lemma walk_elems_first (fuel m : nat) (v : view) :
(1 <= m < length (elems v))%nat ->
exists r,
  In (EvComp 1 (width * Z.of_nat (m - 1)) (width * Z.of_nat m) r)
     (events (walk_elems comp width (S fuel) 1 m v)).
Proof.
intros Hm. cbn [walk_elems].
destruct (Nat.ltb_spec m 1) as [|_]; [lia|].
assert (is_Some (elems v !! (m - 1)%nat)) as [x Hx].
{ apply lookup_lt_is_Some. lia. }
assert (is_Some (elems v !! m)) as [y Hy].
{ apply lookup_lt_is_Some. lia. }
rewrite Hx, Hy. change (Z.of_nat 1) with 1. exists (comp x y).
destruct (comp x y <=? 0).
- cbn [events]. apply in_or_app. right. left. reflexivity.
- apply walk_elems_keeps. cbn [events]. apply in_or_app. right. left.
  reflexivity.
Qed.

Lemma pass_elems_covers (k : nat) :
forall (i : nat) (v : view),
  (1 <= i)%nat -> (i + k <= length (elems v))%nat ->
  forall m : nat, (i <= m < i + k)%nat ->
    exists r,
      In (EvComp 1 (width * Z.of_nat (m - 1)) (width * Z.of_nat m) r)
         (events (pass_elems comp width k 1 i v)).
Proof.
induction k as [|k IH]; intros i v Hi Hk m Hm; [lia|].
cbn [pass_elems].
destruct (Nat.eq_dec m i) as [->|Hne].
- destruct (walk_elems_first i i v ltac:(lia)) as [r Hr].
  exists r. apply pass_elems_keeps. exact Hr.
- apply IH; [lia| |lia].
  rewrite <- (Permutation_length
                (walk_elems_Permutation comp width (S i) 1 i v ltac:(lia))).
  lia.
Qed.

Lemma gap_elems_covers (fuel : nat) :
forall (gap : Z) (v : view),
  1 < gap < 2 ^ size_bits -> (Z.to_nat gap < fuel)%nat ->
  forall m : nat, (1 <= m < length (elems v))%nat ->
    exists r,
      In (EvComp 1 (width * Z.of_nat (m - 1)) (width * Z.of_nat m) r)
         (events (gap_elems size_bits comp width (length (elems v))
                    fuel gap v)).
Proof.
induction fuel as [|fuel IH]; intros gap v Hgap Hf m Hm; [lia|].
cbn [gap_elems].
destruct (Z.ltb_spec 1 gap) as [_|]; [|lia].
destruct (next_gap_halves size_bits size_bits_range gap ltac:(lia))
  as [Hn Hh].
set (gap' := next_gap size_bits gap) in *.
set (v1 := mkView (elems v) (events v ++ [EvGap gap' (width * gap')])).
set (v2 := pass_elems comp width (length (elems v) - Z.to_nat gap')
             (Z.to_nat gap') (Z.to_nat gap') v1).
assert (length (elems v2) = length (elems v)) as El.
{ symmetry. apply Permutation_length.
  apply (pass_elems_Permutation comp width _ _ _ v1). lia. }
destruct (Z.ltb_spec 1 gap') as [Hg|Hg].
- rewrite <- El. apply IH; [lia|lia|lia].
- assert (Z.to_nat gap' = 1%nat) as E1 by lia.
  assert (length (elems v1) = length (elems v)) as E0 by reflexivity.
  destruct (pass_elems_covers (length (elems v) - 1) 1 v1 ltac:(lia)
              ltac:(lia) m ltac:(lia)) as [r Hr].
  exists r. apply gap_elems_keeps. subst v2. rewrite E1. exact Hr.
Qed.

End Coverage.

(** A valid call on two elements or more ends with a pass of gap 1 that
    gives the comparator every element together with the next one: no
    position of the buffer goes unread. *)
Theorem qsort_compares_neighbours (size_bits : Z)
    (comp : list byte -> list byte -> Z) (base : list byte) (nel width : Z) :
  valid_call size_bits base nel width ->
  1 < nel ->
  exists s',
    qsort size_bits comp base nel width = Done tt s' /\
    forall k : Z, 0 <= k -> k + 1 < nel ->
      exists r, In (EvComp 1 (width * k) (width * (k + 1)) r) (log s').
Proof.
  intros Hv Hnel.
  destruct (qsort_result size_bits comp base nel width Hv) as (Hq & _).
  eexists. split; [exact Hq|].
  destruct Hv as [Hb Hn Hw Hs Hl].
  assert (length (elements width nel base) = Z.to_nat nel) as Hlen.
  { unfold elements. rewrite length_map, length_seq. reflexivity. }
  intros k Hk0 Hk1.
  cbn [state_of log]. unfold sort_elems.
  destruct (gap_elems_covers size_bits Hb comp width
              (S (length (elements width nel base)))
              (Z.of_nat (length (elements width nel base)))
              (mkView (elements width nel base) [])
              ltac:(rewrite Hlen; nia) ltac:(lia)
              (Z.to_nat (k + 1)) ltac:(cbn [elems]; lia)) as [r Hr].
  exists r. cbn [elems] in Hr.
  replace (Z.of_nat (Z.to_nat (k + 1) - 1)) with k in Hr by lia.
  replace (Z.of_nat (Z.to_nat (k + 1))) with (k + 1) in Hr by lia.
  exact Hr.
Qed.

Lemma qsort_compares_neighbours_witness :
  valid_call 32 example_ints 6 4 /\
  exists s',
    qsort 32 ascending example_ints 6 4 = Done tt s' /\
    forall k : Z, 0 <= k -> k + 1 < 6 ->
      exists r, In (EvComp 1 (4 * k) (4 * (k + 1)) r) (log s').
Proof.
  assert (valid_call 32 example_ints 6 4) as Hv.
  { split; first [lia | vm_compute; reflexivity]. }
  split; [exact Hv|].
  apply (qsort_compares_neighbours 32 ascending example_ints 6 4 Hv). lia.
Defined.

(** ** How often the comparator is called *)

Lemma calls_of_app (l1 l2 : list event) :
  calls_of (l1 ++ l2) = calls_of l1 ++ calls_of l2.
Proof.
  induction l1 as [|e l1 IH]; [reflexivity|].
  destruct e; cbn [app calls_of]; rewrite IH; reflexivity.
Qed.

Lemma calls_of_swap_events (n : nat) (a b : Z) :
  calls_of (swap_events n a b) = [].
Proof.
  revert a b. induction n as [|n IH]; intros a b; cbn; [reflexivity|apply IH].
Qed.

Lemma div_step (m g : nat) : (1 <= g <= m)%nat -> (m / g = S ((m - g) / g))%nat.
Proof.
  intros H. replace m with ((m - g) + 1 * g)%nat at 1 by lia.
  rewrite Nat.div_add by lia. lia.
Qed.

Lemma div_below (a b : nat) : (a / b <= a)%nat.
Proof.
  destruct b as [|b]; [simpl; lia|].
  pose proof (Nat.Div0.mul_div_le a (S b)). nia.
Qed.

(** Halving the divisor at least doubles the quotient. *)
Lemma div_half (n g h : nat) :
  (1 <= h)%nat -> (2 * h <= g)%nat -> (2 * (n / g) <= n / h)%nat.
Proof.
  intros Hh Hg.
  assert (n / g <= n / (h * 2))%nat as H1.
  { apply Nat.div_le_compat_l. lia. }
  rewrite <- Nat.Div0.div_div in H1.
  pose proof (Nat.Div0.mul_div_le (n / h) 2). lia.
Qed.

Section Calls.

Variable size_bits : Z.
Hypothesis size_bits_range : 0 < size_bits <= 64.
Variable comp : list byte -> list byte -> Z.
Variable width : Z.

(** A walk from element [m] along a chain of gap [g] compares at most
  [m / g] times. *)
Lemma walk_elems_calls (fuel g : nat) :
forall (m : nat) (v : view),
  (1 <= g)%nat ->
  (calls (walk_elems comp width fuel g m v) <= calls v + m / g)%nat.
Proof.
induction fuel as [|fuel IH]; intros m v Hg; cbn [walk_elems]; [lia|].
destruct (Nat.ltb_spec m g) as [|Hm]; [lia|].
destruct (elems v !! (m - g)%nat) as [x|]; [|lia].
destruct (elems v !! m) as [y|]; [|lia].
pose proof (div_step m g ltac:(lia)) as Hd.
destruct (comp x y <=? 0).
- unfold calls. cbn [events]. rewrite calls_of_app, length_app.
  cbn [calls_of length]. lia.
- etransitivity; [apply IH; exact Hg|].
  unfold calls. cbn [events]. rewrite calls_of_app, length_app.
  cbn [calls_of]. rewrite calls_of_swap_events. cbn [length]. lia.
Qed.

Lemma pass_elems_calls (k : nat) :
forall (g i N : nat) (v : view),
  (1 <= g)%nat -> (i + k <= S N)%nat ->
  (calls (pass_elems comp width k g i v) <= calls v + k * (N / g))%nat.
Proof.
induction k as [|k IH]; intros g i N v Hg Hk; cbn [pass_elems]; [lia|].
etransitivity; [apply (IH g (S i) N); [exact Hg|lia]|].
pose proof (walk_elems_calls (S i) g i v Hg) as Hw.
pose proof (Nat.Div0.div_le_mono i N g ltac:(lia)) as Hm.
lia.
Qed.

(** The passes from [gap] on compare at most [2 * N * N] times less
  [2 * N * (N / gap)], for [N + 1] elements. *)
Lemma gap_elems_calls (N fuel : nat) :
forall (gap : Z) (v : view),
  0 <= gap <= Z.of_nat (S N) -> gap < 2 ^ size_bits ->
  (calls (gap_elems size_bits comp width (S N) fuel gap v)
     + 2 * (N * (N / Z.to_nat gap)) <= calls v + 2 * (N * N))%nat.
Proof.
induction fuel as [|fuel IH]; intros gap v Hgap Hmax; cbn [gap_elems].
{ pose proof (div_below N (Z.to_nat gap)). nia. }
destruct (Z.ltb_spec 1 gap) as [H1|].
2:{ pose proof (div_below N (Z.to_nat gap)). nia. }
destruct (next_gap_halves size_bits size_bits_range gap ltac:(lia))
  as [Hn Hh].
set (gap' := next_gap size_bits gap) in *.
set (v1 := mkView (elems v) (events v ++ [EvGap gap' (width * gap')])).
assert (calls v1 = calls v) as E1.
{ unfold calls, v1. cbn [events]. rewrite calls_of_app, length_app.
  cbn. lia. }
pose proof (pass_elems_calls (S N - Z.to_nat gap') (Z.to_nat gap')
              (Z.to_nat gap') N v1 ltac:(lia) ltac:(lia)) as Hp.
pose proof (IH gap' (pass_elems comp width (S N - Z.to_nat gap')
                       (Z.to_nat gap') (Z.to_nat gap') v1)
              ltac:(lia) ltac:(lia)) as Hr.
pose proof (div_half N (Z.to_nat gap) (Z.to_nat gap') ltac:(lia)
              ltac:(lia)) as Hd.
nia.
Qed.

End Calls.

Lemma qsort_degenerate_run (size_bits : Z)
    (comp : list byte -> list byte -> Z) (base : list byte) (nel width : Z) :
  nel <= 1 ->
  qsort size_bits comp base nel width = Done tt (mkState base []).
Proof.
  intros Hnel. unfold qsort, qsort_body, qsort_budget. cbn [gap_loop].
  destruct (Z.ltb_spec 1 nel); [lia|reflexivity].
Qed.

(** A valid call makes at most [2 * (nel - 1) * (nel - 1)] comparator
    calls. *)
Theorem qsort_calls_quadratic (size_bits : Z)
    (comp : list byte -> list byte -> Z) (base : list byte) (nel width : Z) :
  valid_call size_bits base nel width ->
  exists s',
    qsort size_bits comp base nel width = Done tt s' /\
    Z.of_nat (length (calls_of (log s'))) <= 2 * (nel - 1) * (nel - 1).
Proof.
  intros Hv.
  destruct (Z.eq_dec nel 0) as [->|Hnz].
  { rewrite (qsort_degenerate_run size_bits comp base 0 width ltac:(lia)).
    eexists. split; [reflexivity|]. simpl. lia. }
  destruct (qsort_result size_bits comp base nel width Hv) as (Hq & _).
  eexists. split; [exact Hq|].
  destruct Hv as [Hb Hn Hw Hs Hl].
  assert (length (elements width nel base) = S (Z.to_nat (nel - 1))) as Hlen.
  { unfold elements. rewrite length_map, length_seq. lia. }
  cbn [state_of log]. unfold sort_elems. rewrite Hlen.
  pose proof (gap_elems_calls size_bits Hb comp width (Z.to_nat (nel - 1))
                (S (S (Z.to_nat (nel - 1)))) (Z.of_nat (S (Z.to_nat (nel - 1))))
                (mkView (elements width nel base) [])
                ltac:(lia) ltac:(nia)) as Hc.
  unfold calls in Hc. cbn [events calls_of length] in Hc. nia.
Qed.

Lemma qsort_calls_quadratic_witness :
  valid_call 32 example_ints 6 4 /\
  exists s',
    qsort 32 ascending example_ints 6 4 = Done tt s' /\
    Z.of_nat (length (calls_of (log s'))) <= 2 * (6 - 1) * (6 - 1).
Proof.
  assert (valid_call 32 example_ints 6 4) as Hv.
  { split; first [lia | vm_compute; reflexivity]. }
  split; [exact Hv|].
  apply (qsort_calls_quadratic 32 ascending example_ints 6 4 Hv).
Defined.

(** ** A sorted buffer costs one comparison for each element of each pass *)

Section OrderedCalls.

Variable size_bits : Z.
Hypothesis size_bits_range : 0 < size_bits <= 64.
Variable comp : list byte -> list byte -> Z.
Hypothesis comp_swo : strict_weak_ordering comp.
Variable width : Z.

Lemma walk_elems_ordered_calls (fuel g m : nat) (v : view) :
sorted comp (elems v) -> (1 <= g <= m)%nat -> (m < length (elems v))%nat ->
calls (walk_elems comp width (S fuel) g m v) = S (calls v).
Proof.
intros Hs Hg Hm. cbn [walk_elems].
destruct (Nat.ltb_spec m g) as [|_]; [lia|].
assert (is_Some (elems v !! (m - g)%nat)) as [x Hx].
{ apply lookup_lt_is_Some. lia. }
assert (is_Some (elems v !! m)) as [y Hy].
{ apply lookup_lt_is_Some. lia. }
rewrite Hx, Hy.
pose proof (sorted_all_pairs comp comp_swo _ Hs m (m - g)%nat x y
              ltac:(lia) Hx Hy) as Hle.
destruct (Z.leb_spec (comp x y) 0); [|lia].
unfold calls. cbn [events]. rewrite calls_of_app, length_app.
cbn [calls_of length]. lia.
Qed.

Lemma pass_elems_ordered_calls (k : nat) :
forall (g i : nat) (v : view),
  sorted comp (elems v) -> (1 <= g <= i)%nat ->
  (i + k <= length (elems v))%nat ->
  calls (pass_elems comp width k g i v) = (calls v + k)%nat.
Proof.
induction k as [|k IH]; intros g i v Hs Hg Hk; cbn [pass_elems]; [lia|].
destruct (walk_elems_ordered comp comp_swo width (S i) g i v Hs
            ltac:(lia)) as [E1 _].
rewrite IH.
- rewrite walk_elems_ordered_calls by (auto; lia). lia.
- rewrite E1. exact Hs.
- lia.
- rewrite E1. lia.
Qed.

Lemma gap_elems_ordered_calls (fuel : nat) :
forall (gap : Z) (v : view),
  0 <= gap <= Z.of_nat (length (elems v)) -> gap < 2 ^ size_bits ->
  (Z.to_nat gap < fuel)%nat ->
  sorted comp (elems v) ->
  exists l,
    gaps_of (events (gap_elems size_bits comp width (length (elems v))
                       fuel gap v)) = gaps_of (events v) ++ l /\
    Z.of_nat (calls (gap_elems size_bits comp width (length (elems v))
                       fuel gap v)) =
    Z.of_nat (calls v) +
    total (map (fun g => Z.of_nat (length (elems v)) - g) l).
Proof.
induction fuel as [|fuel IH]; intros gap v Hgap Hmax Hf Hs; [lia|].
cbn [gap_elems].
destruct (Z.ltb_spec 1 gap) as [H1|].
2:{ exists []. split; [symmetry; apply app_nil_r|]. simpl. lia. }
destruct (next_gap_halves size_bits size_bits_range gap ltac:(lia))
  as [Hn Hh].
set (gap' := next_gap size_bits gap) in *.
set (v1 := mkView (elems v) (events v ++ [EvGap gap' (width * gap')])).
set (v2 := pass_elems comp width (length (elems v) - Z.to_nat gap')
             (Z.to_nat gap') (Z.to_nat gap') v1).
assert (calls v1 = calls v) as C1.
{ unfold calls, v1. cbn [events]. rewrite calls_of_app, length_app.
  cbn. lia. }
assert (length (elems v1) = length (elems v)) as L1 by reflexivity.
assert (sorted comp (elems v1)) as Hs1 by exact Hs.
destruct (pass_elems_ordered comp comp_swo width
            (length (elems v) - Z.to_nat gap') (Z.to_nat gap')
            (Z.to_nat gap') v1 Hs1 ltac:(lia)) as [E2 _].
fold v2 in E2.
assert (calls v2 = (calls v + (length (elems v) - Z.to_nat gap'))%nat) as C2.
{ unfold v2. rewrite pass_elems_ordered_calls; [lia|exact Hs1|lia|lia]. }
assert (length (elems v2) = length (elems v)) as L2 by (rewrite E2; exact L1).
destruct (IH gap' v2) as (l & G & C); [lia|lia|lia| |].
{ rewrite E2. exact Hs1. }
rewrite L2 in G, C.
exists (gap' :: l). split.
- rewrite G. unfold v2. rewrite pass_elems_gaps. unfold v1. cbn [events].
  rewrite gaps_of_app. cbn [gaps_of]. rewrite <- app_assoc. reflexivity.
- rewrite C, C2. cbn [map total fold_right].
  fold (total (map (fun g => Z.of_nat (length (elems v)) - g) l)). lia.
Qed.

(** The elements of the view, by number. *)
Variable el : nat -> list byte.

Lemma walk_elems_ordered_run (fuel g m : nat) (v : view) :
  sorted comp (elems v) -> (1 <= g <= m)%nat -> (m < length (elems v))%nat ->
  (forall j x, elems v !! j = Some x -> x = el j) ->
  walk_elems comp width (S fuel) g m v =
  mkView (elems v)
    (events v ++
     [EvComp (Z.of_nat g) (width * Z.of_nat (m - g)) (width * Z.of_nat m)
        (comp (el (m - g)) (el m))]).
Proof.
  intros Hs Hg Hm Hel. cbn [walk_elems].
  destruct (Nat.ltb_spec m g) as [|_]; [lia|].
  assert (is_Some (elems v !! (m - g)%nat)) as [x Hx].
  { apply lookup_lt_is_Some. lia. }
  assert (is_Some (elems v !! m)) as [y Hy].
  { apply lookup_lt_is_Some. lia. }
  rewrite Hx, Hy.
  pose proof (sorted_all_pairs comp comp_swo _ Hs m (m - g)%nat x y
                ltac:(lia) Hx Hy) as Hle.
  destruct (Z.leb_spec (comp x y) 0); [|lia].
  rewrite (Hel _ _ Hx), (Hel _ _ Hy). reflexivity.
Qed.

Lemma pass_elems_ordered_run (k : nat) :
  forall (g i : nat) (v : view),
    sorted comp (elems v) -> (1 <= g <= i)%nat ->
    (i + k <= length (elems v))%nat ->
    (forall j x, elems v !! j = Some x -> x = el j) ->
    pass_elems comp width k g i v =
    mkView (elems v)
      (events v ++
       map (fun m : nat =>
              EvComp (Z.of_nat g) (width * Z.of_nat (m - g))
                (width * Z.of_nat m) (comp (el (m - g)) (el m)))
           (seq i k)).
Proof.
  induction k as [|k IH]; intros g i v Hs Hg Hk Hel;
    cbn [pass_elems seq map].
  - rewrite app_nil_r. destruct v; reflexivity.
  - rewrite (walk_elems_ordered_run i g i v Hs Hg ltac:(lia) Hel).
    rewrite IH; cbn [elems events]; try assumption; try lia.
    rewrite <- app_assoc. reflexivity.
Qed.

End OrderedCalls.

Lemma lookup_map_seq {A} (f : nat -> A) (n : nat) :
  forall a j : nat, (j < n)%nat -> map f (seq a n) !! j = Some (f (a + j)%nat).
Proof.
  induction n as [|n IH]; intros a j Hj; [lia|]. cbn [seq map].
  destruct j as [|j].
  - rewrite Nat.add_0_r. reflexivity.
  - cbn. rewrite IH by lia. f_equal. f_equal. lia.
Qed.

Lemma elements_lookup (width nel : Z) (base : list byte) (j : nat)
    (x : list byte) :
  elements width nel base !! j = Some x -> x = element width base j.
Proof.
  intros Hx. pose proof (lookup_lt_Some _ _ _ Hx) as Hj.
  unfold elements in Hx, Hj. rewrite length_map, length_seq in Hj.
  rewrite (lookup_map_seq _ _ 0 j Hj) in Hx. injection Hx as <-.
  reflexivity.
Qed.

Lemma gaps_of_sorted_passes (comp : list byte -> list byte -> Z)
    (width : Z) (base : list byte) (nel : Z) (l : list Z) :
  gaps_of (flat_map (sorted_pass_events comp width base nel) l) = l.
Proof.
  induction l as [|g l IH]; [reflexivity|].
  cbn [flat_map]. rewrite gaps_of_app, IH.
  unfold sorted_pass_events. cbn [gaps_of].
  assert (forall (f : nat -> Z * Z * Z) (ns : list nat),
            gaps_of (map (fun i => EvComp g (fst (fst (f i)))
                                     (snd (fst (f i))) (snd (f i))) ns) = [])
    as Hnone.
  { intros f ns. induction ns as [|n ns IHn]; [reflexivity|exact IHn]. }
  rewrite (Hnone (fun i =>
             (width * Z.of_nat (i - Z.to_nat g), width * Z.of_nat i,
              comp (element width base (i - Z.to_nat g))
                   (element width base i)))).
  reflexivity.
Qed.

(** The passes on a sorted buffer, pass by pass. *)
Lemma gap_elems_ordered_run (size_bits : Z)
    (comp : list byte -> list byte -> Z) (width : Z) (base : list byte)
    (nel : Z) (fuel : nat) :
  0 < size_bits <= 64 -> strict_weak_ordering comp -> 0 <= nel ->
  forall (gap : Z) (v : view),
    elems v = elements width nel base ->
    0 <= gap <= nel -> gap < 2 ^ size_bits -> (Z.to_nat gap < fuel)%nat ->
    sorted comp (elems v) ->
    exists l,
      gap_chain size_bits gap l /\
      gap_elems size_bits comp width (Z.to_nat nel) fuel gap v =
      mkView (elems v)
        (events v ++ flat_map (sorted_pass_events comp width base nel) l).
Proof.
  intros Hb Hc Hnel.
  induction fuel as [|fuel IH]; intros gap v Ev Hgap Hmax Hf Hs; [lia|].
  cbn [gap_elems].
  destruct (Z.ltb_spec 1 gap) as [H1|H1].
  2:{ exists []. split; [exact H1|]. cbn [flat_map].
      rewrite app_nil_r. destruct v; reflexivity. }
  destruct (next_gap_halves size_bits Hb gap ltac:(lia)) as [Hn Hh].
  set (gap' := next_gap size_bits gap) in *.
  set (v1 := mkView (elems v) (events v ++ [EvGap gap' (width * gap')])).
  assert (length (elems v) = Z.to_nat nel) as Hlen.
  { rewrite Ev. unfold elements. rewrite length_map, length_seq.
    reflexivity. }
  assert (forall j x, elems v1 !! j = Some x -> x = element width base j)
    as Hel.
  { intros j x. cbn [v1 elems]. rewrite Ev. apply elements_lookup. }
  rewrite (pass_elems_ordered_run comp Hc width (element width base)
             (Z.to_nat nel - Z.to_nat gap') (Z.to_nat gap') (Z.to_nat gap')
             v1 Hs ltac:(lia) ltac:(cbn [v1 elems]; lia) Hel).
  cbn [v1 elems events]. rewrite Z2Nat.id by lia.
  match goal with
  | |- context [gap_elems _ _ _ _ _ _ ?v2] =>
      destruct (IH gap' v2) as (l & Hl & Hrun);
        [exact Ev|lia|lia|lia|exact Hs|]
  end.
  rewrite Hrun. exists (gap' :: l). split.
  - cbn [gap_chain]. auto.
  - cbn [elems events flat_map]. unfold sorted_pass_events at 2.
    f_equal. rewrite <- !app_assoc. reflexivity.
Qed.

(** On a buffer that is sorted already, the log is that of the passes of
    the gap chain from [nel], pass by pass: each pass logs its gap and then
    calls the comparator exactly once for each element from number [gap]
    on, in ascending order, on the element [gap] places before it and on
    itself.  The buffer is left as it was, and the number of comparator
    calls is the sum of [nel - gap] over the gaps of the passes. *)
Theorem qsort_sorted_input_calls (size_bits : Z)
    (comp : list byte -> list byte -> Z) (base : list byte) (nel width : Z) :
  valid_call size_bits base nel width ->
  strict_weak_ordering comp ->
  sorted comp (elements width nel base) ->
  exists s',
    qsort size_bits comp base nel width = Done tt s' /\
    mem s' = base /\
    gap_chain size_bits nel (gaps_of (log s')) /\
    log s' =
    flat_map (sorted_pass_events comp width base nel) (gaps_of (log s')) /\
    Z.of_nat (length (calls_of (log s'))) =
    total (map (fun gap => nel - gap) (gaps_of (log s'))).
Proof.
  intros Hv Hc Hsorted.
  destruct (qsort_result size_bits comp base nel width Hv) as (Hq & _).
  eexists. split; [exact Hq|].
  destruct Hv as [Hb Hn Hw Hs Hl].
  assert (length (elements width nel base) = Z.to_nat nel) as Hlen.
  { unfold elements. rewrite length_map, length_seq. reflexivity. }
  destruct (gap_elems_ordered_run size_bits comp width base nel
              (S (Z.to_nat nel)) Hb Hc Hn nel
              (mkView (elements width nel base) []))
    as (l & Hchain & Hrun); cbn [elems];
    [reflexivity|lia|nia|lia|exact Hsorted|].
  cbn [elems events app] in Hrun.
  destruct (gap_elems_ordered_calls size_bits Hb comp Hc width
              (S (length (elements width nel base)))
              (Z.of_nat (length (elements width nel base)))
              (mkView (elements width nel base) []))
    as (l' & G & C); cbn [elems]; [lia|rewrite Hlen; nia|lia|exact Hsorted|].
  cbn [elems events gaps_of app] in G, C. unfold calls in C.
  cbn [events calls_of length] in C.
  rewrite Hlen, Z2Nat.id in G, C by lia.
  unfold sort_elems. rewrite Hlen, Z2Nat.id by lia.
  cbn [state_of mem log].
  rewrite G, C. rewrite Hrun in G. cbn [events] in G.
  rewrite gaps_of_sorted_passes in G. subst l'.
  rewrite Hrun. cbn [elems events].
  split; [apply concat_elements; lia|].
  split; [exact Hchain|]. split; [reflexivity|]. lia.
Qed.

Lemma qsort_sorted_input_calls_witness :
  valid_call 32 example_sorted 6 4 /\
  strict_weak_ordering ascending /\
  sorted ascending (elements 4 6 example_sorted) /\
  exists s',
    qsort 32 ascending example_sorted 6 4 = Done tt s' /\
    mem s' = example_sorted /\
    gap_chain 32 6 (gaps_of (log s')) /\
    log s' =
    flat_map (sorted_pass_events ascending 4 example_sorted 6)
      (gaps_of (log s')) /\
    Z.of_nat (length (calls_of (log s'))) =
    total (map (fun gap => 6 - gap) (gaps_of (log s'))).
Proof.
  assert (valid_call 32 example_sorted 6 4) as Hv.
  { split; first [lia | vm_compute; reflexivity]. }
  assert (strict_weak_ordering ascending) as Hc.
  { apply compare_by_swo. }
  assert (sorted ascending (elements 4 6 example_sorted)) as Hs.
  { intros k x y.
    destruct k as [|[|[|[|[|[|k]]]]]]; vm_compute; intros Hx Hy;
      try discriminate Hy;
      injection Hx as <-; injection Hy as <-; vm_compute; discriminate. }
  split; [exact Hv|]. split; [exact Hc|]. split; [exact Hs|].
  apply (qsort_sorted_input_calls 32 ascending example_sorted 6 4 Hv Hc Hs).
Defined.

(** ** Agreement with any other sort *)

Lemma sorted_by_key (key : list byte -> Z) (xs : list (list byte)) :
  sorted (compare_by key) xs -> Sorted Z.le (map key xs).
Proof.
  induction xs as [|x xs IH]; intros Hs; cbn [map]; constructor.
  - apply IH. intros k a b Ha Hb. apply (Hs (S k)); assumption.
  - destruct xs as [|y xs]; constructor.
    specialize (Hs 0%nat x y eq_refl eq_refl). unfold compare_by in Hs.
    destruct (Z.compare_spec (key x) (key y)); lia.
Qed.

Lemma map_injective_on {A B} (f : A -> B) (l1 l2 : list A) :
  (forall x y, In x l1 -> In y l2 -> f x = f y -> x = y) ->
  map f l1 = map f l2 -> l1 = l2.
Proof.
  revert l2. induction l1 as [|x l1 IH]; intros [|y l2] Hinj E;
    cbn [map] in E; try discriminate; [reflexivity|].
  injection E as E1 E2. f_equal.
  - apply Hinj; [left; reflexivity|left; reflexivity|exact E1].
  - apply IH; [|exact E2].
    intros a b Ha Hb. apply Hinj; right; assumption.
Qed.

(** Under a comparator that orders the elements by an integer key, the
    keys come out in the one order that any correct sort of the same
    elements gives them; and when no two elements share a key, the buffer
    itself comes out as from any correct sort. *)
Theorem qsort_agrees_with_sorted (size_bits : Z) (key : list byte -> Z)
    (base : list byte) (nel width : Z) (ys : list (list byte)) :
  valid_call size_bits base nel width ->
  Permutation (elements width nel base) ys ->
  Sorted Z.le (map key ys) ->
  exists s',
    qsort size_bits (compare_by key) base nel width = Done tt s' /\
    map key (elements width nel (mem s')) = map key ys /\
    ((forall x y, In x ys -> In y ys -> key x = key y -> x = y) ->
     elements width nel (mem s') = ys).
Proof.
  intros Hv Hp Hs.
  destruct (qsort_result_sorted size_bits (compare_by key) base nel width Hv)
    as (s' & Hq & _ & Hsorted).
  { intros x y. apply (swo_converse _ (compare_by_swo key)). }
  destruct (qsort_result size_bits (compare_by key) base nel width Hv)
    as (Hq' & He & Hp' & _).
  rewrite Hq in Hq'. injection Hq' as ->.
  eexists. split; [exact Hq|]. rewrite He.
  assert (Permutation (elems (sort_elems size_bits (compare_by key) width
                                (elements width nel base))) ys) as Hpy.
  { etransitivity; [symmetry; exact Hp'|exact Hp]. }
  assert (map key (elems (sort_elems size_bits (compare_by key) width
                            (elements width nel base))) = map key ys) as Ek.
  { apply (Sorted_unique Z.le).
    - apply sorted_by_key. rewrite <- He. exact Hsorted.
    - exact Hs.
    - apply Permutation_map. exact Hpy. }
  split; [exact Ek|].
  intros Hinj. apply (map_injective_on key); [|exact Ek].
  intros x y Hx Hy. apply Hinj; [|exact Hy].
  apply (Permutation_in _ Hpy Hx).
Qed.

Lemma qsort_agrees_with_sorted_witness :
  valid_call 32 example_ints 6 4 /\
  exists s',
    qsort 32 (compare_by le_value) example_ints 6 4 = Done tt s' /\
    map le_value (elements 4 6 (mem s')) =
    map le_value (elements 4 6 example_sorted) /\
    ((forall x y, In x (elements 4 6 example_sorted) ->
                  In y (elements 4 6 example_sorted) ->
                  le_value x = le_value y -> x = y) ->
     elements 4 6 (mem s') = elements 4 6 example_sorted).
Proof.
  assert (valid_call 32 example_ints 6 4) as Hv.
  { split; first [lia | vm_compute; reflexivity]. }
  split; [exact Hv|].
  apply (qsort_agrees_with_sorted 32 le_value example_ints 6 4
           (elements 4 6 example_sorted) Hv).
  - vm_compute.
    apply (perm_trans (l' := [[x01; x00; x00; x00]; [x05; x00; x00; x00];
                              [x03; x00; x00; x00]; [x08; x00; x00; x00];
                              [x09; x00; x00; x00]; [x02; x00; x00; x00]])).
    { apply (Permutation_app_swap_app [_; _; _] [_]). }
    apply perm_skip.
    apply (perm_trans (l' := [[x02; x00; x00; x00]; [x05; x00; x00; x00];
                              [x03; x00; x00; x00]; [x08; x00; x00; x00];
                              [x09; x00; x00; x00]])).
    { apply (Permutation_app_comm [_; _; _; _] [_]). }
    apply perm_skip.
    apply perm_trans with (l' := [[x03; x00; x00; x00]; [x05; x00; x00; x00];
                                  [x08; x00; x00; x00]; [x09; x00; x00; x00]]).
    { apply perm_swap. }
    repeat apply perm_skip. apply perm_nil.
  - vm_compute. repeat constructor; discriminate.
Defined.

(** ** The swap loop on raw bytes *)

Ltac app_lookup :=
  repeat first
    [ rewrite lookup_app_l by (rewrite ?length_app; lia)
    | rewrite lookup_app_r by (rewrite ?length_app; lia) ].

Lemma split_five {A} (l : list A) (a b n : nat) :
  (a + n <= b)%nat ->
  l = take a l ++ take n (drop a l) ++ take (b - (a + n)) (drop (a + n) l)
        ++ take n (drop b l) ++ drop (b + n) l.
Proof.
  intros Hab.
  rewrite <- (take_drop a l) at 1. f_equal.
  rewrite <- (take_drop n (drop a l)) at 1. f_equal.
  rewrite drop_drop.
  rewrite <- (take_drop (b - (a + n)) (drop (a + n) l)) at 1. f_equal.
  rewrite drop_drop. replace (a + n + (b - (a + n)))%nat with b by lia.
  rewrite <- (take_drop n (drop b l)) at 1. f_equal.
  rewrite drop_drop. reflexivity.
Qed.

Lemma exchanged_lookup {A} (P X Q Y R : list A) (k : nat) :
  length Y = length X ->
  (P ++ Y ++ Q ++ X ++ R) !! k =
  (P ++ X ++ Q ++ Y ++ R)
    !! exchanged (length P) (length P + length X + length Q) (length X) k.
Proof.
  intros HY. unfold exchanged.
  destruct (decide (length P <= k < length P + length X)%nat) as [H1|H1].
  { app_lookup. f_equal. lia. }
  destruct (decide (length P + length X + length Q <= k
                    < length P + length X + length Q + length X)%nat)
    as [H2|H2].
  { app_lookup. f_equal. lia. }
  destruct (Nat.lt_ge_cases k (length P)).
  { app_lookup. reflexivity. }
  destruct (Nat.lt_ge_cases k (length P + length X + length Q)).
  { app_lookup. f_equal. lia. }
  app_lookup. f_equal. lia.
Qed.

Lemma exchanged_involutive (a b n k : nat) :
  (a + n <= b)%nat -> exchanged a b n (exchanged a b n k) = k.
Proof.
  intros Hab. unfold exchanged. repeat case_decide; lia.
Qed.

(** What one run of the swap loop does to a state. *)
Lemma swap_loop_spec (size_bits : Z) (s : state) (a b n budget : nat) :
  0 < size_bits <= 64 ->
  (1 <= n)%nat -> Z.of_nat n < 2 ^ size_bits ->
  (a + n <= b)%nat -> (b + n <= length (mem s))%nat -> (n <= budget)%nat ->
  exists s',
    swap_loop size_bits budget (Z.of_nat a) (Z.of_nat b) (Z.of_nat n) s =
    Done tt s' /\
    length (mem s') = length (mem s) /\
    log s' = log s ++ swap_events n (Z.of_nat a) (Z.of_nat b) /\
    forall k : nat, mem s' !! k = mem s !! exchanged a b n k.
Proof.
  intros Hb Hn Hmax Hab Hlen Hbud. destruct s as [m lg]. cbn [mem log] in *.
  set (P := take a m). set (X := take n (drop a m)).
  set (Q := take (b - (a + n)) (drop (a + n) m)).
  set (Y := take n (drop b m)). set (R := drop (b + n) m).
  assert (m = P ++ X ++ Q ++ Y ++ R) as Em by (apply split_five; exact Hab).
  assert (length P = a) as LP by (apply length_take_le; lia).
  assert (length X = n) as LX.
  { unfold X. rewrite length_take, length_drop. lia. }
  assert (length Q = (b - (a + n))%nat) as LQ.
  { unfold Q. rewrite length_take, length_drop. lia. }
  assert (length Y = n) as LY.
  { unfold Y. rewrite length_take, length_drop. lia. }
  exists (mkState (P ++ Y ++ Q ++ X ++ R)
            (lg ++ swap_events n (Z.of_nat a) (Z.of_nat b))).
  split; [|split; [|split]].
  - assert (X <> []) as Hne.
    { intros E. rewrite E in LX. simpl in LX. lia. }
    pose proof (swap_loop_segments size_bits Hb X Y P Q R lg budget
                  (Z.of_nat a) (Z.of_nat b) Hne ltac:(lia) ltac:(lia)
                  ltac:(lia) ltac:(lia) ltac:(lia)) as H.
    rewrite LX, <- Em in H. exact H.
  - cbn [mem]. rewrite Em at 1. rewrite !length_app. lia.
  - reflexivity.
  - intros k. cbn [mem]. rewrite Em at 1.
    rewrite (exchanged_lookup P X Q Y R k) by lia.
    f_equal. f_equal; lia.
Qed.

(** One run of the swap loop on two runs of [n] bytes that do not overlap
    and lie inside the buffer exchanges them byte for byte, leaves every
    other byte where it is, and loads and stores each of the [2 * n] bytes
    once, in ascending order. *)
Theorem swap_loop_exchanges (size_bits : Z) (s : state) (a b n budget : nat) :
  0 < size_bits <= 64 ->
  (1 <= n)%nat -> Z.of_nat n < 2 ^ size_bits ->
  (a + n <= b)%nat -> (b + n <= length (mem s))%nat -> (n <= budget)%nat ->
  exists s',
    swap_loop size_bits budget (Z.of_nat a) (Z.of_nat b) (Z.of_nat n) s =
    Done tt s' /\
    length (mem s') = length (mem s) /\
    log s' = log s ++ swap_events n (Z.of_nat a) (Z.of_nat b) /\
    (forall t : nat, (t < n)%nat ->
       mem s' !! (a + t)%nat = mem s !! (b + t)%nat /\
       mem s' !! (b + t)%nat = mem s !! (a + t)%nat) /\
    (forall k : nat,
       ~ (a <= k < a + n)%nat -> ~ (b <= k < b + n)%nat ->
       mem s' !! k = mem s !! k).
Proof.
  intros Hb Hn Hmax Hab Hlen Hbud.
  destruct (swap_loop_spec size_bits s a b n budget Hb Hn Hmax Hab Hlen Hbud)
    as (s' & Hrun & Hl & Hlog & Hk).
  exists s'. split; [exact Hrun|]. split; [exact Hl|]. split; [exact Hlog|].
  split.
  - intros t Ht. rewrite !Hk. unfold exchanged.
    split; repeat case_decide; try lia; f_equal; lia.
  - intros k H1 H2. rewrite Hk. unfold exchanged.
    repeat case_decide; try lia; reflexivity.
Qed.

Lemma swap_loop_exchanges_witness :
  exists s',
    swap_loop 32 4 0 8 4 (mkState example_ints []) = Done tt s' /\
    length (mem s') = length example_ints /\
    log s' = [] ++ swap_events 4 0 8 /\
    (forall t : nat, (t < 4)%nat ->
       mem s' !! (0 + t)%nat = example_ints !! (8 + t)%nat /\
       mem s' !! (8 + t)%nat = example_ints !! (0 + t)%nat) /\
    (forall k : nat,
       ~ (0 <= k < 0 + 4)%nat -> ~ (8 <= k < 8 + 4)%nat ->
       mem s' !! k = example_ints !! k).
Proof.
  apply (swap_loop_exchanges 32 (mkState example_ints []) 0 8 4 4);
    first [lia | vm_compute; lia].
Defined.

(** Two runs of the swap loop on the same two runs of bytes put every byte
    back. *)
Theorem swap_loop_twice (size_bits : Z) (s : state) (a b n budget : nat) :
  0 < size_bits <= 64 ->
  (1 <= n)%nat -> Z.of_nat n < 2 ^ size_bits ->
  (a + n <= b)%nat -> (b + n <= length (mem s))%nat -> (n <= budget)%nat ->
  exists s' s'',
    swap_loop size_bits budget (Z.of_nat a) (Z.of_nat b) (Z.of_nat n) s =
    Done tt s' /\
    swap_loop size_bits budget (Z.of_nat a) (Z.of_nat b) (Z.of_nat n) s' =
    Done tt s'' /\
    mem s'' = mem s.
Proof.
  intros Hb Hn Hmax Hab Hlen Hbud.
  destruct (swap_loop_spec size_bits s a b n budget Hb Hn Hmax Hab Hlen Hbud)
    as (s' & Hrun & Hl & _ & Hk).
  destruct (swap_loop_spec size_bits s' a b n budget Hb Hn Hmax Hab
              ltac:(lia) Hbud) as (s'' & Hrun' & _ & _ & Hk').
  exists s', s''. split; [exact Hrun|]. split; [exact Hrun'|].
  apply list_eq. intros k.
  rewrite Hk', Hk, exchanged_involutive by exact Hab. reflexivity.
Qed.

Lemma swap_loop_twice_witness :
  exists s' s'',
    swap_loop 32 4 0 8 4 (mkState example_ints []) = Done tt s' /\
    swap_loop 32 4 0 8 4 s' = Done tt s'' /\
    mem s'' = example_ints.
Proof.
  apply (swap_loop_twice 32 (mkState example_ints []) 0 8 4 4);
    first [lia | vm_compute; lia].
Defined.

(** ** The schedule of the passes *)

Lemma gap_chain_unique (size_bits : Z) (l1 : list Z) :
  forall (gap : Z) (l2 : list Z),
    gap_chain size_bits gap l1 -> gap_chain size_bits gap l2 -> l1 = l2.
Proof.
  induction l1 as [|g1 l1 IH]; intros gap [|g2 l2] H1 H2;
    cbn [gap_chain] in H1, H2.
  - reflexivity.
  - lia.
  - lia.
  - destruct H1 as (_ & -> & H1). destruct H2 as (_ & -> & H2).
    f_equal. apply (IH _ _ H1 H2).
Qed.

Lemma qsort_gap_chain (size_bits : Z) (comp : list byte -> list byte -> Z)
    (base : list byte) (nel width : Z) :
  valid_call size_bits base nel width ->
  exists s',
    qsort size_bits comp base nel width = Done tt s' /\
    gap_chain size_bits nel (gaps_of (log s')).
Proof.
  intros Hv.
  destruct (qsort_result size_bits comp base nel width Hv) as (Hq & _).
  eexists. split; [exact Hq|].
  destruct Hv as [Hb Hn Hw Hs Hl].
  cbn [state_of log]. unfold sort_elems.
  assert (length (elements width nel base) = Z.to_nat nel) as ->.
  { unfold elements. rewrite length_map, length_seq. reflexivity. }
  rewrite Z2Nat.id by lia.
  destruct (gap_elems_gaps size_bits Hb comp width (Z.to_nat nel)
              (S (Z.to_nat nel)) nel (mkView (elements width nel base) [])
              ltac:(nia) ltac:(lia)) as (l & -> & Hc).
  exact Hc.
Qed.

(** The passes and their gaps depend on the number of elements alone: two
    valid calls on as many elements make the same passes, whatever the
    buffers hold, however wide the elements are and whatever the
    comparators answer. *)
Theorem qsort_schedule (size_bits : Z)
    (comp1 comp2 : list byte -> list byte -> Z)
    (base1 base2 : list byte) (nel width1 width2 : Z) :
  valid_call size_bits base1 nel width1 ->
  valid_call size_bits base2 nel width2 ->
  exists s1 s2,
    qsort size_bits comp1 base1 nel width1 = Done tt s1 /\
    qsort size_bits comp2 base2 nel width2 = Done tt s2 /\
    gaps_of (log s1) = gaps_of (log s2).
Proof.
  intros Hv1 Hv2.
  destruct (qsort_gap_chain size_bits comp1 base1 nel width1 Hv1)
    as (s1 & Hq1 & Hc1).
  destruct (qsort_gap_chain size_bits comp2 base2 nel width2 Hv2)
    as (s2 & Hq2 & Hc2).
  exists s1, s2. split; [exact Hq1|]. split; [exact Hq2|].
  apply (gap_chain_unique size_bits _ nel _ Hc1 Hc2).
Qed.

Lemma qsort_schedule_witness :
  valid_call 32 example_ints 6 4 /\
  valid_call 32 (buffer_of 2 [6; 5; 4; 3; 2; 1]) 6 2 /\
  exists s1 s2,
    qsort 32 ascending example_ints 6 4 = Done tt s1 /\
    qsort 32 cyclic (buffer_of 2 [6; 5; 4; 3; 2; 1]) 6 2 = Done tt s2 /\
    gaps_of (log s1) = gaps_of (log s2).
Proof.
  assert (valid_call 32 example_ints 6 4) as Hv1.
  { split; first [lia | vm_compute; reflexivity]. }
  assert (valid_call 32 (buffer_of 2 [6; 5; 4; 3; 2; 1]) 6 2) as Hv2.
  { split; first [lia | vm_compute; reflexivity]. }
  split; [exact Hv1|]. split; [exact Hv2|].
  apply (qsort_schedule 32 ascending cyclic _ _ 6 4 2 Hv1 Hv2).
Defined.
